(** * blameworthy/gitops.go: the git-log stripper and parser

    A shallow embedding of [StripGitLog], [ParseGitLog] and [emptyZero],
    followed by the properties established about them.

    Conventions.
    - A Go [string] is a sequence of bytes: [string] (a list of [ascii]).
    - A Go [int] is taken to be 64 bits wide and modelled as [Z]; the places
      where the source can leave the range are written out ([wrap64],
      [int32]).
    - A run-time panic (slice out of range, index out of range, nil
      dereference) is an explicit outcome, not an error value: the source
      returns an [error] only from [scanner.Err()].
    - Pointers ([*Commit], [*Diff]) are addresses into explicit stores, so that
      aliasing between [GitHistory.Files] and [Commit.Diffs] is visible. *)

From Stdlib Require Import ZArith Ascii.
From stdpp Require Import gmap strings list fin_maps.

Local Open Scope Z_scope.
Local Open Scope nat_scope.

(* ===================================================================== *)
(** * Go strings *)
(* ===================================================================== *)

(** [len(s)] *)
Abbreviation len := String.length.

(** [s[n:]] when [n <= len(s)] *)
Fixpoint sdrop (n : nat) (s : string) : string :=
  match n, s with
  | O, _ => s
  | S k, String _ s' => sdrop k s'
  | S _, EmptyString => EmptyString
  end.

(** [s[:n]] when [n <= len(s)] *)
Fixpoint stake (n : nat) (s : string) : string :=
  match n, s with
  | O, _ => EmptyString
  | S k, String c s' => String c (stake k s')
  | S _, EmptyString => EmptyString
  end.

(** [s[lo:]]: a slice expression panics when [lo > len(s)]. *)
Definition slice_from (s : string) (lo : nat) : option string :=
  if decide (lo ≤ len s) then Some (sdrop lo s) else None.

(** [s[lo:hi]]: panics unless [lo <= hi <= len(s)]. *)
Definition slice (s : string) (lo hi : nat) : option string :=
  if decide (lo ≤ hi ∧ hi ≤ len s) then Some (stake (hi - lo) (sdrop lo s))
  else None.

(** [strings.HasPrefix(s, prefix)] *)
Fixpoint HasPrefix (s prefix : string) : bool :=
  match prefix, s with
  | EmptyString, _ => true
  | String c p, String d s' => if Ascii.eqb c d then HasPrefix s' p else false
  | String _ _, EmptyString => false
  end.

(** [strings.Index(s, substr)]: the first position of [substr], [None] for
    Go's [-1]. *)
Fixpoint Index (s substr : string) : option nat :=
  if HasPrefix s substr then Some O
  else match s with
       | EmptyString => None
       | String _ s' => S <$> Index s' substr
       end.

(** [strings.Count(s, "0")]: the number of bytes of [s] equal to [c]. *)
Fixpoint CountByte (s : string) (c : ascii) : nat :=
  match s with
  | EmptyString => O
  | String d s' => (if Ascii.eqb d c then 1 else 0) + CountByte s' c
  end.

(** The character classes of the three regular expressions. [\d] is ASCII
    only in Go's regexp syntax. *)
Definition is_digit (c : ascii) : bool :=
  let n := N_of_ascii c in ((48 <=? n) && (n <=? 57))%N.

Definition is_hex (c : ascii) : bool :=
  let n := N_of_ascii c in
  (((48 <=? n) && (n <=? 57)) || ((97 <=? n) && (n <=? 102)))%N.

(** The longest prefix of [s] whose bytes all satisfy [p], and what follows
    it: how a greedy [x+] or [x*] matches. *)
Fixpoint span (p : ascii → bool) (s : string) : string * string :=
  match s with
  | EmptyString => (EmptyString, EmptyString)
  | String c s' =>
      if p c then let '(a, b) := span p s' in (String c a, b)
      else (EmptyString, s)
  end.

(** What remains of [s] after the literal [lit], when [s] starts with it. *)
Definition after_lit (lit s : string) : option string :=
  if HasPrefix s lit then Some (sdrop (len lit) s) else None.

(** [,?] and [-?]: an optional single byte, matched when present. *)
Definition opt_byte (c : ascii) (s : string) : string * string :=
  match s with
  | String d s' => if Ascii.eqb c d then (String c EmptyString, s') else (EmptyString, s)
  | EmptyString => (EmptyString, EmptyString)
  end.

(* ===================================================================== *)
(** * strconv.Atoi *)
(* ===================================================================== *)

Inductive ParseUintResult :=
| UVal (n : N)
| USyntax
| URange.

Definition digit_val (c : ascii) : option N :=
  if is_digit c then Some (N_of_ascii c - 48)%N else None.

(** The digit loop of [strconv.ParseUint(s, 10, 64)]: it stops at the first
    byte that is not a digit (syntax error) or at the first digit that takes
    the value past [2^64 - 1] (range error), whichever comes first. *)
Fixpoint ParseUint_loop (s : string) (n : N) : ParseUintResult :=
  match s with
  | EmptyString => UVal n
  | String c s' =>
      match digit_val c with
      | None => USyntax
      | Some d =>
          let n1 := (n * 10 + d)%N in
          if (18446744073709551615 <? n1)%N then URange else ParseUint_loop s' n1
      end
  end.

Definition ParseUint (s : string) : ParseUintResult :=
  match s with
  | EmptyString => USyntax
  | _ => ParseUint_loop s 0%N
  end.

(** The value [strconv.Atoi] returns, its error discarded as every call site
    of the source does ([n, _ := strconv.Atoi(...)]): 0 on a syntax error, the
    nearest bound of the 64-bit range on a range error. *)
Definition Atoi (s : string) : Z :=
  let '(neg, body) :=
    match s with
    | String "+" r => (false, r)
    | String "-" r => (true, r)
    | _ => (false, s)
    end in
  match ParseUint body with
  | USyntax => 0%Z
  | URange => if neg then (- 9223372036854775808)%Z else 9223372036854775807%Z
  | UVal n =>
      if neg then
        if (9223372036854775808 <? n)%N then (- 9223372036854775808)%Z
        else (- Z.of_N n)%Z
      else
        if (9223372036854775808 <=? n)%N then 9223372036854775807%Z
        else Z.of_N n
  end.

(** Addition of two Go [int]s: two's complement wrap-around at 64 bits. *)
Definition wrap64 (z : Z) : Z :=
  ((z + 9223372036854775808) mod 18446744073709551616 - 9223372036854775808)%Z.

(** The conversion [int32(n)]. *)
Definition int32 (z : Z) : Z :=
  ((z + 2147483648) mod 4294967296 - 2147483648)%Z.

(* ===================================================================== *)
(** * The three regular expressions *)
(* ===================================================================== *)

(** Each pattern is anchored at the start and is a sequence of literals and
    greedy runs over one character class, every run being followed by a
    literal byte outside its class (or by another run of the same class after
    an optional comma that a digit cannot match). Backtracking can therefore
    not find a match that the longest-run reading misses, and the
    leftmost-first match that [FindStringSubmatch] reports is the longest-run
    one. The functions return the capture groups, [None] for a [nil] result. *)

(** [^index ([0-9a-f]+)\.\.([0-9a-f]+)] *)
Definition index_re (line : string) : option (string * string) :=
  r ← after_lit "index " line;
  let '(g1, r) := span is_hex r in
  if decide (g1 = "") then None else
  r ← after_lit ".." r;
  let '(g2, _) := span is_hex r in
  if decide (g2 = "") then None else Some (g1, g2).

(** The part the two hunk patterns share, "^@@ -(D+),?(D?) \+(D+),?(D?) "
    where D+ stands for one or more digits and D? for any number of them. It
    returns the four groups and the text after the final space. *)
Definition hunk_ranges (line : string) : option (string * string * string * string * string) :=
  r ← after_lit "@@ -" line;
  let '(g1, r) := span is_digit r in
  if decide (g1 = "") then None else
  let '(_, r) := opt_byte "," r in
  let '(g2, r) := span is_digit r in
  r ← after_lit " +" r;
  let '(g3, r) := span is_digit r in
  if decide (g3 = "") then None else
  let '(_, r) := opt_byte "," r in
  let '(g4, r) := span is_digit r in
  r ← after_lit " " r;
  Some (g1, g2, g3, g4, r).

(** [re] of [StripGitLog]: the shared part and nothing more. *)
Definition strip_re (line : string) : option (string * string * string * string) :=
  '(g1, g2, g3, g4, _) ← hunk_ranges line;
  Some (g1, g2, g3, g4).

(** [hunk_re] of [ParseGitLog]: the shared part, then "@@(-?)". *)
Definition hunk_re (line : string) : option (string * string * string * string * string) :=
  '(g1, g2, g3, g4, r) ← hunk_ranges line;
  r ← after_lit "@@" r;
  let '(g5, _) := opt_byte "-" r in
  Some (g1, g2, g3, g4, g5).

(** Substitute the empty string for an all-zero git hash. *)
Definition emptyZero (hash : string) : string :=
  if decide (CountByte hash "0" = len hash) then "" else hash.

(* ===================================================================== *)
(** * Streams: io.Reader, bufio.Scanner, io.Writer *)
(* ===================================================================== *)

Definition error := string.

(** How a run of the source can end: with its return values, or in a run-time
    panic. [OutOfFuel] belongs to the model only: the loops below take a bound
    on their iterations, and [ParseGitLog_total] and [StripGitLog_total] show
    that the bound the two entry points pass is never reached. *)
Inductive Panic :=
| SliceBounds   (* slice bounds out of range *)
| IndexRange    (* index out of range *)
| NilDeref.     (* nil pointer dereference *)

Inductive Outcome (A : Type) :=
| Ret (a : A)
| Panicked (p : Panic)
| OutOfFuel.
Arguments Ret {A} a.
Arguments Panicked {A} p.
Arguments OutOfFuel {A}.

(** An input stream: the bytes it delivers, and the error (other than
    [io.EOF]) with which reading them ends, if any. *)
Record Reader := { data : string; read_err : option error }.

(** [bufio.ScanLines] over the whole stream: tokens end at a newline, one
    trailing carriage return is dropped from each, and a last line without a
    newline is a token when it is not empty. [cur] holds the bytes of the
    current token, latest first. *)
Definition dropCR (rev_tok : string) : string :=
  match rev_tok with
  | String "013" r => r
  | _ => rev_tok
  end.

Fixpoint srev_append (s acc : string) : string :=
  match s with
  | EmptyString => acc
  | String c s' => srev_append s' (String c acc)
  end.

Definition finish_token (cur : string) : string := srev_append (dropCR cur) "".

Fixpoint ScanLines_from (s cur : string) : list string :=
  match s with
  | EmptyString => match cur with EmptyString => [] | _ => [finish_token cur] end
  | String "010" s' => finish_token cur :: ScanLines_from s' ""
  | String c s' => ScanLines_from s' (String c cur)
  end.

Definition ScanLines (s : string) : list string := ScanLines_from s "".

(** A [bufio.Scanner] on lines: the tokens still to come, the token of the
    last [Scan] (what [Text] returns), and the error [Err] reports once the
    tokens are exhausted. The buffer ceilings set with [scanner.Buffer] are
    not part of the model: a line above the ceiling is a stream that ends
    there with [bufio.ErrTooLong] as its error. *)
Record Scanner := { pending : list string; token : string; scan_err : option error }.

Definition NewScanner (r : Reader) : Scanner :=
  {| pending := ScanLines (data r); token := ""; scan_err := read_err r |}.

(** [scanner.Scan()]: a failed [Scan] leaves the empty token behind, and every
    later [Scan] fails again. *)
Definition Scan (sc : Scanner) : bool * Scanner :=
  match pending sc with
  | l :: rest => (true, {| pending := rest; token := l; scan_err := scan_err sc |})
  | [] => (false, {| pending := []; token := ""; scan_err := scan_err sc |})
  end.

Definition Text (sc : Scanner) : string := token sc.
Definition Err (sc : Scanner) : option error := scan_err sc.

(** [for i := 0; i < n; i++ { scanner.Scan() }] *)
Fixpoint skip_lines (n : nat) (sc : Scanner) : Scanner :=
  match n with
  | O => sc
  | S k => skip_lines k (Scan sc).2
  end.

(** [lines_to_skip := oldLength + newLength] as the bound of that loop: a
    sum that wraps to a negative number runs it zero times. *)
Definition lines_to_skip (oldLength newLength : Z) : nat :=
  Z.to_nat (wrap64 (oldLength + newLength)).

(** The length a hunk header gives, 1 when its group is empty. *)
Definition length_or_1 (g : string) : Z :=
  if decide (0 < len g) then Atoi g else 1%Z.

(** The newline byte. *)
Definition LF : string := String "010" EmptyString.

(** Standard output as [fmt.Print] sees it: a state and a write that may
    fail. *)
Class Writer (W : Type) := Write : W → string → W * option error.

(** A writer that keeps everything it is given. *)
Global Instance buffer_writer : Writer string := λ w s, (w +:+ s, None).

(** A pipe whose reader closes after [quota] writes, as [head] does. *)
Record Pipe := { written : string; quota : nat }.
Global Instance pipe_writer : Writer Pipe := λ w s,
  match quota w with
  | O => (w, Some "write |1: broken pipe")
  | S q => ({| written := written w +:+ s; quota := q |}, None)
  end.

(* ===================================================================== *)
(** * StripGitLog *)
(* ===================================================================== *)

(** The body of the loop up to the [fmt.Print]: the line to print ([None]
    for [continue]) and the scanner after the lines the branch consumed. *)
Definition strip_line (sc : Scanner) : Outcome (option string * Scanner) :=
  let line := Text sc in
  if HasPrefix line "commit " then Ret (Some line, sc)
  else if HasPrefix line "Author: " then Ret (Some line, sc)
  else if HasPrefix line "Date: " then Ret (Some line, sc)
  else if HasPrefix line "index " then Ret (Some line, sc)
  else if HasPrefix line "--- " then Ret (Some line, sc)
  else if HasPrefix line "+++ " then Ret (Some line, sc)
  else if HasPrefix line "@@ " then
    let rest := sdrop 3 line in
    match Index rest " @@" with
    | None => Panicked SliceBounds            (* rest[:-1] *)
    | Some i =>
        let line := "@@ " +:+ stake i rest +:+ " @@-" in
        match strip_re line with
        | None => Panicked IndexRange         (* result_slice[2] of a nil slice *)
        | Some (_, g2, _, g4) =>
            let oldLength := length_or_1 g2 in
            let newLength := length_or_1 g4 in
            Ret (Some line, skip_lines (lines_to_skip oldLength newLength) sc)
        end
    end
  else Ret (None, sc).

Section Strip.
Context {W : Type} `{Writer W}.

Fixpoint strip_loop (fuel : nat) (sc : Scanner) (w : W) : Outcome (W * option error) :=
  match fuel with
  | O => OutOfFuel
  | S fuel =>
      let '(more, sc) := Scan sc in
      if more then
        match strip_line sc with
        | Ret (Some line, sc) =>
            let '(w, err) := Write w (line +:+ LF) in   (* fmt.Print(line, "\n") *)
            match err with
            | Some _ => Ret (w, None)   (* be silent about error if piped into head, tail *)
            | None => strip_loop fuel sc w
            end
        | Ret (None, sc) => strip_loop fuel sc w
        | Panicked p => Panicked p
        | OutOfFuel => OutOfFuel
        end
      else Ret (w, Err sc)
  end.

(** [StripGitLog(input)], with the standard output it prints to made
    explicit. Every iteration consumes a line, so one more iteration than
    there are lines is enough. *)
Definition StripGitLog (input : Reader) (stdout : W) : Outcome (W * option error) :=
  let scanner := NewScanner input in
  strip_loop (S (length (pending scanner))) scanner stdout.
End Strip.

(* ===================================================================== *)
(** * The data model of GitHistory *)
(* ===================================================================== *)

Definition HashLength : nat := 16. (* number of hash characters to preserve *)

Record Hunk := {
  OldStart : Z;
  OldLength : Z;
  NewStart : Z;
  NewLength : Z }.

(** A [*Commit]: the address of a [Commit] object in the commit store. *)
Abbreviation CommitPtr := nat (only parsing).

(** A [*Diff] obtained as [&files[path][i]]: a backing array of the diff
    store and a position in it. *)
Record DiffPtr := { d_arr : nat; d_idx : nat }.

Global Instance DiffPtr_eq_dec : EqDecision DiffPtr.
Proof. solve_decision. Defined.

(** [Hunks] is a slice in the source. It is held by value here: a [Diff] is
    appended to only through [diff], which addresses the last element of its
    path's current backing array, and a [Diff] is copied (by a growing
    [append]) only once it has stopped being that element. *)
Record Diff := {
  DiffCommit : option CommitPtr;   (* the field Commit *Commit *)
  Path : string;
  ChecksumBefore : string;
  ChecksumAfter : string;
  Hunks : list Hunk }.

Record Commit := {
  Hash : string;
  Author : string;
  Date : Z;                        (* int32, YYYYMMDD *)
  Diffs : list DiffPtr }.

(** [type File []Diff]: a slice header. The [nil] slice is the absence of a
    header ([None] where a [File] is looked up). *)
Record File := { s_arr : nat; s_len : nat; s_cap : nat }.

Record GitHistory := {
  Hashes : list string;
  Commits : gmap string CommitPtr;
  Files : gmap string File }.

(** The zero value that fills the unused tail of a backing array. *)
Definition zeroDiff : Diff :=
  {| DiffCommit := None; Path := ""; ChecksumBefore := ""; ChecksumAfter := "";
     Hunks := [] |}.

(** [*p] for a [*Diff]. *)
Definition deref (arrays : list (list Diff)) (p : DiffPtr) : option Diff :=
  a ← arrays !! d_arr p; a !! d_idx p.

(** [f[i]] for a [File]; [None] is the index-out-of-range panic. *)
Definition File_at (arrays : list (list Diff)) (f : File) (i : nat) : option Diff :=
  if decide (i < s_len f) then a ← arrays !! s_arr f; a !! i else None.

(** The elements of a [File], oldest first. *)
Definition File_elems (arrays : list (list Diff)) (f : File) : list Diff :=
  take (s_len f) (default [] (arrays !! s_arr f)).

(** [*p = d] *)
Definition store_diff (arrays : list (list Diff)) (p : DiffPtr) (d : Diff) : list (list Diff) :=
  alter (λ a, <[d_idx p := d]> a) (d_arr p) arrays.

(* ===================================================================== *)
(** * ParseGitLog *)
(* ===================================================================== *)

Section Parse.
(** [strings.TrimSpace], and the capacity the runtime picks when a slice of
    capacity [oldcap] has to grow to hold [newlen] elements: library code
    the results below do not depend on. A new array always has room for the
    elements it is allocated for, whatever the policy says. *)
Variable TrimSpace : string → string.
Variable growcap : nat → nat → nat.

(** [append(f, d)] for a [File]: in place while the capacity lasts, into a
    newly allocated array (the old one is left as it is) when it does not. *)
Definition append_File (arrays : list (list Diff)) (f : option File) (d : Diff)
  : list (list Diff) * File :=
  let '(old, n, c) :=
    match f with
    | Some f => (Some (s_arr f), s_len f, s_cap f)
    | None => (None, 0, 0)
    end in
  match old with
  | Some a =>
      if decide (n < c) then
        (alter (λ els, <[n := d]> els) a arrays,
         {| s_arr := a; s_len := S n; s_cap := c |})
      else
        let c' := S n `max` growcap c (S n) in
        (arrays ++ [take n (default [] (arrays !! a)) ++ d :: replicate (c' - S n) zeroDiff],
         {| s_arr := length arrays; s_len := S n; s_cap := c' |})
  | None =>
      let c' := 1 `max` growcap 0 1 in
      (arrays ++ [d :: replicate (c' - 1) zeroDiff],
       {| s_arr := length arrays; s_len := 1; s_cap := c' |})
  end.

(** The variables of [ParseGitLog], with the two stores its pointers refer
    to. [history.Commits] and [history.Files] are the maps the source also
    names [commits] and [files]. *)
Record PState := {
  scanner : Scanner;
  history : GitHistory;
  commit_objs : list Commit;          (* the Commit objects allocated so far *)
  diff_arrays : list (list Diff);     (* the backing arrays allocated so far *)
  authors : gmap string string;       (* dedup authors *)
  commit_hash : string;
  checksum : string;
  commit : option CommitPtr;
  diff : option DiffPtr }.

Definition set_scanner (sc : Scanner) (st : PState) : PState :=
  {| scanner := sc; history := history st; commit_objs := commit_objs st;
     diff_arrays := diff_arrays st; authors := authors st;
     commit_hash := commit_hash st; checksum := checksum st;
     commit := commit st; diff := diff st |}.

Definition set_commit_objs (cs : list Commit) (st : PState) : PState :=
  {| scanner := scanner st; history := history st; commit_objs := cs;
     diff_arrays := diff_arrays st; authors := authors st;
     commit_hash := commit_hash st; checksum := checksum st;
     commit := commit st; diff := diff st |}.

(** [line] starts with "commit ". *)
Definition on_commit (line : string) (st : PState) : Outcome PState :=
  match slice line 7 (7 + HashLength) with
  | None => Panicked SliceBounds
  | Some h =>
      let c := length (commit_objs st) in     (* &Commit{commit_hash, "", 0, nil} *)
      Ret {| scanner := scanner st;
             history := {| Hashes := Hashes (history st) ++ [h];
                           Commits := <[h := c]> (Commits (history st));
                           Files := Files (history st) |};
             commit_objs := commit_objs st ++
               [{| Hash := h; Author := ""; Date := 0; Diffs := [] |}];
             diff_arrays := diff_arrays st; authors := authors st;
             commit_hash := h; checksum := checksum st;
             commit := Some c; diff := diff st |}
  end.

(** [line] starts with "index ". *)
Definition on_index (line : string) (st : PState) : Outcome PState :=
  match index_re line with
  | None => Ret st                                            (* continue *)
  | Some (_, g2) =>
      Ret {| scanner := scanner st; history := history st;
             commit_objs := commit_objs st; diff_arrays := diff_arrays st;
             authors := authors st; commit_hash := commit_hash st;
             checksum := emptyZero g2;
             commit := commit st; diff := diff st |}
  end.

(** The path of the diff a "--- " line opens, [sc] being the scanner after
    the line that follows has been read: that line gives the path when the
    "--- " line names /dev/null. *)
Definition diff_path (line : string) (sc : Scanner) : option string :=
  let path := sdrop 4 line in
  if decide (path = "/dev/null") then slice_from (Text sc) 4   (* line2[4:] *)
  else Some path.

(** [checksumBefore]: empty for a path with no diff yet, the
    [ChecksumAfter] of its last diff otherwise. *)
Definition inherited_checksum (arrays : list (list Diff)) (f : option File) : option string :=
  match f with
  | None => Some ""
  | Some f =>
      match s_len f with
      | O => None                                    (* files[path][-1] *)
      | S i => ChecksumAfter <$> File_at arrays f i
      end
  end.

(** [line] starts with "--- ". *)
Definition on_path (line : string) (st : PState) : Outcome PState :=
  let sc := (Scan (scanner st)).2 in                  (* read the "+++" line *)
  match diff_path line sc with
  | None => Panicked SliceBounds
  | Some path =>
      let files := Files (history st) in
      match inherited_checksum (diff_arrays st) (files !! path) with
      | None => Panicked IndexRange
      | Some checksumBefore =>
          let af :=
            append_File (diff_arrays st) (files !! path)
              {| DiffCommit := commit st; Path := path;
                 ChecksumBefore := checksumBefore;
                 ChecksumAfter := checksum st; Hunks := [] |} in
          let p := {| d_arr := s_arr af.2; d_idx := s_len af.2 - 1 |} in
          match commit st with
          | None => Panicked NilDeref
          | Some c =>
              match commit_objs st !! c with
              | None => Panicked NilDeref
              | Some co =>
                  Ret {| scanner := sc;
                         history := {| Hashes := Hashes (history st);
                                       Commits := Commits (history st);
                                       Files := <[path := af.2]> files |};
                         commit_objs :=
                           <[c := {| Hash := Hash co; Author := Author co;
                                     Date := Date co;
                                     Diffs := Diffs co ++ [p] |}]> (commit_objs st);
                         diff_arrays := af.1; authors := authors st;
                         commit_hash := commit_hash st; checksum := "";
                         commit := commit st; diff := Some p |}
              end
          end
      end
  end.

(** [line] starts with "@@ ". *)
Definition on_hunk (line : string) (st : PState) : Outcome PState :=
  match hunk_re line with
  | None => Ret st                                            (* continue *)
  | Some (g1, g2, g3, g4, g5) =>
      let h := {| OldStart := Atoi g1; OldLength := length_or_1 g2;
                  NewStart := Atoi g3; NewLength := length_or_1 g4 |} in
      match diff st with
      | None => Panicked NilDeref
      | Some p =>
          match deref (diff_arrays st) p with
          | None => Panicked NilDeref
          | Some d =>
              let arrays :=
                store_diff (diff_arrays st) p
                  {| DiffCommit := DiffCommit d; Path := Path d;
                     ChecksumBefore := ChecksumBefore d;
                     ChecksumAfter := ChecksumAfter d;
                     Hunks := Hunks d ++ [h] |} in
              (* Expect no unified diff if hunk header ends in "@@-" *)
              let is_stripped := bool_decide (0 < len g5) in
              let sc :=
                if is_stripped then scanner st
                else skip_lines (lines_to_skip (OldLength h) (NewLength h)) (scanner st) in
              Ret {| scanner := sc; history := history st;
                     commit_objs := commit_objs st; diff_arrays := arrays;
                     authors := authors st; commit_hash := commit_hash st;
                     checksum := checksum st;
                     commit := commit st; diff := diff st |}
          end
      end
  end.

(** The last two branches: every line that reaches them reads
    [commit.Author] first. *)
Definition on_other (line : string) (st : PState) : Outcome PState :=
  match commit st with
  | None => Panicked NilDeref
  | Some c =>
      match commit_objs st !! c with
      | None => Panicked NilDeref
      | Some co =>
          if bool_decide (len (Author co) = 0) && HasPrefix line "Author: " then
            let a := TrimSpace (sdrop 8 line) in
            match authors st !! a with
            | Some a2 =>
                Ret (set_commit_objs
                       (<[c := {| Hash := Hash co; Author := a2; Date := Date co;
                                  Diffs := Diffs co |}]> (commit_objs st)) st)
            | None =>
                Ret {| scanner := scanner st; history := history st;
                       commit_objs := commit_objs st; diff_arrays := diff_arrays st;
                       authors := <[a := a]> (authors st);
                       commit_hash := commit_hash st; checksum := checksum st;
                       commit := commit st; diff := diff st |}
            end
          else if bool_decide (Date co = 0%Z) && HasPrefix line "Date: " then
            let n := Atoi (sdrop 6 line) in
            Ret (set_commit_objs
                   (<[c := {| Hash := Hash co; Author := Author co; Date := int32 n;
                              Diffs := Diffs co |}]> (commit_objs st)) st)
          else Ret st
      end
  end.

(** The body of the loop, [line] being [scanner.Text()]. *)
Definition parse_line (st : PState) : Outcome PState :=
  let line := Text (scanner st) in
  if HasPrefix line "commit " then on_commit line st
  else if HasPrefix line "index " then on_index line st
  else if HasPrefix line "--- " then on_path line st
  else if HasPrefix line "@@ " then on_hunk line st
  else on_other line st.

(** [for scanner.Scan() { ... }] *)
Fixpoint parse_loop (fuel : nat) (st : PState) : Outcome PState :=
  match fuel with
  | O => OutOfFuel
  | S fuel =>
      let '(more, sc) := Scan (scanner st) in
      if more then
        match parse_line (set_scanner sc st) with
        | Ret st => parse_loop fuel st
        | Panicked p => Panicked p
        | OutOfFuel => OutOfFuel
        end
      else Ret (set_scanner sc st)
  end.

(** What the caller of [ParseGitLog] holds when it returns: the history,
    the two stores its pointers lead into, and the error. *)
Record Parsed := {
  p_history : GitHistory;
  p_commits : list Commit;
  p_arrays : list (list Diff);
  p_err : option error }.

Definition init (input_stream : Reader) : PState :=
  {| scanner := NewScanner input_stream;
     history := {| Hashes := []; Commits := ∅; Files := ∅ |};
     commit_objs := []; diff_arrays := []; authors := ∅;
     commit_hash := ""; checksum := ""; commit := None; diff := None |}.

Definition finish (st : PState) : Parsed :=
  {| p_history := history st; p_commits := commit_objs st;
     p_arrays := diff_arrays st; p_err := Err (scanner st) |}.

(** [ParseGitLog(input_stream)]. Every iteration consumes a line, so one
    more iteration than there are lines is enough. *)
Definition ParseGitLog (input_stream : Reader) : Outcome Parsed :=
  let st := init input_stream in
  match parse_loop (S (length (pending (scanner st)))) st with
  | Ret st => Ret (finish st)
  | Panicked p => Panicked p
  | OutOfFuel => OutOfFuel
  end.

(** The diffs of a commit as a reader of the history sees them. *)
Definition commit_diffs (r : Parsed) (c : Commit) : list (option Diff) :=
  deref (p_arrays r) <$> Diffs c.

(** The diffs of a path, oldest first. *)
Definition path_diffs (r : Parsed) (path : string) : list Diff :=
  match Files (p_history r) !! path with
  | Some f => File_elems (p_arrays r) f
  | None => []
  end.
End Parse.

(* ===================================================================== *)
(** * Instances of the library parameters, for running the model *)
(* ===================================================================== *)

(** The white space [strings.TrimSpace] removes among the ASCII bytes. *)
Definition is_space (c : ascii) : bool :=
  let n := N_of_ascii c in (((9 <=? n) && (n <=? 13)) || (n =? 32))%N.

Fixpoint trim_left (s : string) : string :=
  match s with
  | String c s' => if is_space c then trim_left s' else s
  | EmptyString => EmptyString
  end.

(** [strings.TrimSpace] on ASCII text. *)
Definition TrimSpaceASCII (s : string) : string :=
  srev_append (trim_left (srev_append (trim_left s) "")) "".

(** Capacity doubling, the runtime's policy for short slices. *)
Definition doubling (oldcap newlen : nat) : nat := 2 * oldcap.

(** A stream that ends cleanly after the given lines. *)
Definition unlines (ls : list string) : string :=
  foldr (λ l acc, l +:+ LF +:+ acc) "" ls.

Definition text (ls : list string) : Reader :=
  {| data := unlines ls; read_err := None |}.

Abbreviation parse := (ParseGitLog TrimSpaceASCII doubling).

(* ===================================================================== *)
(** * The scanner and the two loops *)
(* ===================================================================== *)

Lemma Scan_pending sc : pending (Scan sc).2 = drop 1 (pending sc).
Proof. unfold Scan. by destruct (pending sc). Qed.

Lemma Scan_err sc : scan_err (Scan sc).2 = scan_err sc.
Proof. unfold Scan. by destruct (pending sc). Qed.

Lemma skip_lines_pending n sc : pending (skip_lines n sc) = drop n (pending sc).
Proof.
  revert sc. induction n as [|n IH]; intros sc; simpl.
  - by rewrite drop_0.
  - rewrite IH, Scan_pending, drop_drop. f_equal.
Qed.

Lemma skip_lines_err n sc : scan_err (skip_lines n sc) = scan_err sc.
Proof.
  revert sc. induction n as [|n IH]; intros sc; simpl; [done|].
  by rewrite IH, Scan_err.
Qed.

(** Two scanners that agree on what is still to come and on the final error
    differ only in the token of the last [Scan], which no loop reads before
    scanning again. *)
Definition rescan (rest : list string) (l : string) (sc : Scanner) : Scanner :=
  {| pending := rest; token := l; scan_err := scan_err sc |}.

Lemma Scan_cons sc l rest :
  pending sc = l :: rest → Scan sc = (true, rescan rest l sc).
Proof. unfold Scan. by intros ->. Qed.

Lemma Scan_nil sc :
  pending sc = [] → Scan sc = (false, rescan [] "" sc).
Proof. unfold Scan. by intros ->. Qed.

Section ParseLoop.
Variable TrimSpace : string → string.
Variable growcap : nat → nat → nat.

Abbreviation parse_line := (parse_line TrimSpace growcap).
Abbreviation parse_loop := (parse_loop TrimSpace growcap).
Abbreviation on_path := (on_path growcap).
Abbreviation on_other := (on_other TrimSpace).

(** A line handler only ever moves the scanner forward. *)
Definition advances (st st' : PState) : Prop :=
  (∃ k, pending (scanner st') = drop k (pending (scanner st))) ∧
  scan_err (scanner st') = scan_err (scanner st).

Lemma advances_same st st' : scanner st' = scanner st → advances st st'.
Proof. intros Heq. unfold advances. rewrite Heq. split; [by exists 0 | done]. Qed.

Lemma on_commit_advances line st st' : on_commit line st = Ret st' → advances st st'.
Proof.
  unfold on_commit. destruct (slice _ _ _); [|done].
  intros [= <-]. by apply advances_same.
Qed.

Lemma on_index_advances line st st' : on_index line st = Ret st' → advances st st'.
Proof.
  unfold on_index. destruct (index_re line) as [[??]|]; intros [= <-];
    by apply advances_same.
Qed.

Lemma on_path_advances line st st' : on_path line st = Ret st' → advances st st'.
Proof.
  unfold on_path. intros Hp.
  destruct (diff_path _ _); [|done].
  destruct (inherited_checksum _ _); [|done].
  destruct (commit st); [|done].
  destruct (commit_objs st !! _); [|done].
  injection Hp as <-.
  split; simpl; [exists 1; apply Scan_pending | apply Scan_err].
Qed.

Lemma on_hunk_advances line st st' : on_hunk line st = Ret st' → advances st st'.
Proof.
  unfold on_hunk. intros Hp.
  repeat (case_match; try done); simplify_eq;
    try (by apply advances_same).
  split; simpl; [eexists; apply skip_lines_pending | apply skip_lines_err].
Qed.

Lemma on_other_advances line st st' : on_other line st = Ret st' → advances st st'.
Proof.
  unfold on_other. intros Hp.
  repeat (case_match; try done); simplify_eq; by apply advances_same.
Qed.

Lemma parse_line_advances st st' : parse_line st = Ret st' → advances st st'.
Proof.
  unfold parse_line. repeat case_match;
    eauto using on_commit_advances, on_index_advances, on_path_advances,
      on_hunk_advances, on_other_advances.
Qed.

Lemma parse_line_shorter st st' :
  parse_line st = Ret st' →
  length (pending (scanner st')) ≤ length (pending (scanner st)).
Proof.
  intros [[k ->] _]%parse_line_advances. rewrite length_drop. lia.
Qed.

(** Any bound above the number of pending lines gives the same run. *)
Lemma parse_loop_fuel f1 f2 st :
  length (pending (scanner st)) < f1 →
  length (pending (scanner st)) < f2 →
  parse_loop f1 st = parse_loop f2 st.
Proof.
  revert f2 st. induction f1 as [|f1 IH]; intros [|f2] st H1 H2; try lia.
  simpl. destruct (pending (scanner st)) as [|l rest] eqn:Hpend.
  - by rewrite (Scan_nil _ Hpend).
  - rewrite (Scan_cons _ _ _ Hpend).
    destruct (parse_line _) as [st'| |] eqn:Hline; [|done..].
    apply parse_line_shorter in Hline. simpl in *. apply IH; lia.
Qed.

Lemma parse_loop_S fuel st :
  parse_loop (S fuel) st =
    match Scan (scanner st) with
    | (true, sc) =>
        match parse_line (set_scanner sc st) with
        | Ret st => parse_loop fuel st
        | Panicked p => Panicked p
        | OutOfFuel => OutOfFuel
        end
    | (false, sc) => Ret (set_scanner sc st)
    end.
Proof. done. Qed.

(** The loop with a bound that is always enough. *)
Definition run (st : PState) : Outcome PState :=
  parse_loop (S (length (pending (scanner st)))) st.

Lemma run_nil st :
  pending (scanner st) = [] →
  run st = Ret (set_scanner (rescan [] "" (scanner st)) st).
Proof. intros Hp. unfold run. simpl. by rewrite (Scan_nil _ Hp). Qed.

Lemma run_cons st l rest :
  pending (scanner st) = l :: rest →
  run st =
    match parse_line (set_scanner (rescan rest l (scanner st)) st) with
    | Ret st' => run st'
    | Panicked p => Panicked p
    | OutOfFuel => OutOfFuel
    end.
Proof.
  intros Hp. unfold run at 1. rewrite parse_loop_S, (Scan_cons _ _ _ Hp).
  destruct (parse_line _) as [st'| |] eqn:Hline; [|done..].
  pose proof (parse_line_shorter _ _ Hline) as Hle. simpl in Hle.
  rewrite Hp. apply parse_loop_fuel; simpl; lia.
Qed.

Lemma parse_line_fuel st : parse_line st ≠ OutOfFuel.
Proof.
  unfold parse_line, on_commit, on_index, on_path, on_hunk, on_other.
  repeat (case_match; try done).
  all: destruct (diff_path _ _); [|done].
  all: destruct (inherited_checksum _ _); [|done].
  all: repeat (case_match; try done).
Qed.

Lemma run_total st : run st ≠ OutOfFuel.
Proof.
  remember (length (pending (scanner st))) as n eqn:Hn.
  revert st Hn. induction (lt_wf n) as [n _ IH]. intros st ->.
  destruct (pending (scanner st)) as [|l rest] eqn:Hp.
  - by rewrite (run_nil _ Hp).
  - rewrite (run_cons _ _ _ Hp).
    destruct (parse_line _) as [st'| |] eqn:Hline; [|done|].
    + apply parse_line_shorter in Hline. simpl in Hline.
      eapply IH; [|done]. simpl. lia.
    + by apply parse_line_fuel in Hline.
Qed.

Lemma ParseGitLog_run input :
  ParseGitLog TrimSpace growcap input =
    match run (init input) with
    | Ret st => Ret (finish st)
    | Panicked p => Panicked p
    | OutOfFuel => OutOfFuel
    end.
Proof. done. Qed.

(** The bound [ParseGitLog] passes to its loop is never reached: the model
    ends the way the source does, by returning or by panicking. *)
Lemma ParseGitLog_total input : ParseGitLog TrimSpace growcap input ≠ OutOfFuel.
Proof.
  rewrite ParseGitLog_run. pose proof (run_total (init input)).
  by destruct (run _).
Qed.
End ParseLoop.

(* ===================================================================== *)
(** * The diff store under append and under assignment through a pointer *)
(* ===================================================================== *)

Lemma deref_cell arrays a i :
  deref arrays {| d_arr := a; d_idx := i |} = arrays !! a ≫= (.!! i).
Proof. done. Qed.

Lemma File_at_deref arrays f i :
  i < s_len f →
  File_at arrays f i = deref arrays {| d_arr := s_arr f; d_idx := i |}.
Proof. intros Hi. unfold File_at. by rewrite decide_True. Qed.

Lemma File_at_lt arrays f i d : File_at arrays f i = Some d → i < s_len f.
Proof. unfold File_at. by case_decide. Qed.

Lemma store_diff_same arrays p d :
  is_Some (deref arrays p) → deref (store_diff arrays p d) p = Some d.
Proof.
  destruct p as [a i]. unfold deref, store_diff. simpl. intros [d0 Hd].
  destruct (arrays !! a) as [els|] eqn:Ha; [|done]. simpl in Hd.
  rewrite list_lookup_alter_eq, Ha. simpl.
  apply list_lookup_insert_eq. by eapply lookup_lt_Some.
Qed.

Lemma store_diff_other arrays p q d :
  p ≠ q → deref (store_diff arrays p d) q = deref arrays q.
Proof.
  destruct p as [a i], q as [b j]. unfold deref, store_diff. simpl. intros Hne.
  destruct (decide (a = b)) as [->|Hab].
  - rewrite list_lookup_alter_eq. destruct (arrays !! b); [|done]. simpl.
    apply list_lookup_insert_ne. congruence.
  - by rewrite list_lookup_alter_ne.
Qed.

Lemma store_diff_length arrays p d : length (store_diff arrays p d) = length arrays.
Proof. apply length_alter. Qed.

Lemma store_diff_array_length arrays p d a els :
  arrays !! a = Some els →
  ∃ els', store_diff arrays p d !! a = Some els' ∧ length els' = length els.
Proof.
  intros Ha. unfold store_diff. destruct (decide (d_arr p = a)) as [<-|Hne].
  - rewrite list_lookup_alter_eq, Ha. eexists. split; [done|]. apply length_insert.
  - rewrite list_lookup_alter_ne by done. eauto.
Qed.

(** A [File] in good order: a backing array of its capacity, at least one
    element, every element carrying the file's path. *)
Definition File_ok (arrays : list (list Diff)) (path : string) (f : File) : Prop :=
  ∃ els, arrays !! s_arr f = Some els ∧ 0 < s_len f ∧ s_len f ≤ s_cap f ∧
         s_cap f = length els ∧
         ∀ i, i < s_len f → ∃ d, els !! i = Some d ∧ Path d = path.

Lemma File_ok_at arrays path f i :
  File_ok arrays path f → i < s_len f →
  ∃ d, File_at arrays f i = Some d ∧ Path d = path.
Proof.
  intros (els & Hels & _ & _ & _ & Hall) Hi.
  destruct (Hall i Hi) as (d & Hd & Hp). exists d. split; [|done].
  unfold File_at. rewrite decide_True by done. by rewrite Hels.
Qed.

Lemma File_ok_arr arrays path f : File_ok arrays path f → s_arr f < length arrays.
Proof. intros (els & Hels & _). by eapply lookup_lt_Some. Qed.

Section Append.
Variable growcap : nat → nat → nat.
Abbreviation append_File := (append_File growcap).

(** What [append] does to a [File] in good order, cell by cell. [n] is the
    length before the call. *)
Lemma append_File_spec arrays fo d path :
  (∀ f, fo = Some f → File_ok arrays path f) →
  Path d = path →
  let n := from_option s_len 0 fo in
  let arrays' := (append_File arrays fo d).1 in
  let f' := (append_File arrays fo d).2 in
  File_ok arrays' path f' ∧
  s_len f' = S n ∧
  deref arrays' {| d_arr := s_arr f'; d_idx := n |} = Some d ∧
  (∀ f i, fo = Some f → i < n →
     deref arrays' {| d_arr := s_arr f'; d_idx := i |} =
     deref arrays {| d_arr := s_arr f; d_idx := i |}) ∧
  (∀ a, a ≠ s_arr f' → arrays' !! a = arrays !! a) ∧
  ((∃ f, fo = Some f ∧ s_arr f' = s_arr f) ∨ s_arr f' = length arrays) ∧
  length arrays ≤ length arrays'.
Proof.
  intros Hok Hpath. destruct fo as [f|]; simpl.
  - destruct (Hok f eq_refl) as (els & Hels & Hpos & Hle & Hcap & Hall).
    unfold append_File. destruct (decide (s_len f < s_cap f)) as [Hlt|Hge]; simpl.
    + (* in place *)
      split_and!.
      * exists (<[s_len f := d]> els). simpl.
        rewrite list_lookup_alter_eq, Hels, length_insert.
        split_and!; [done|lia|lia|done|].
        intros i Hi. destruct (decide (i = s_len f)) as [->|Hne].
        -- exists d. split; [|done]. apply list_lookup_insert_eq. lia.
        -- rewrite list_lookup_insert_ne by done. apply Hall. lia.
      * done.
      * unfold deref. simpl. rewrite list_lookup_alter_eq, Hels. simpl.
        apply list_lookup_insert_eq. lia.
      * intros ? i [= <-] Hi. unfold deref. simpl.
        rewrite list_lookup_alter_eq. destruct (arrays !! s_arr f); [|done].
        simpl. apply list_lookup_insert_ne. lia.
      * intros a Hq. by rewrite list_lookup_alter_ne.
      * left. eauto.
      * by rewrite length_alter.
    + (* into a new array *)
      assert (s_len f = length els) as Hfull by lia.
      set (c' := S (s_len f) `max` growcap (s_cap f) (S (s_len f))).
      split_and!.
      * eexists. simpl. rewrite lookup_app_r, Nat.sub_diag by done.
        split; [done|]. rewrite Hels. simpl.
        rewrite length_app, length_take. simpl. rewrite length_replicate.
        split_and!; [lia|lia|lia|].
        intros i Hi. destruct (decide (i = s_len f)) as [->|Hne].
        -- exists d. split; [|done].
           rewrite lookup_app_r by (rewrite length_take; lia).
           rewrite length_take.
           replace (s_len f - s_len f `min` length els) with 0 by lia. done.
        -- rewrite lookup_app_l by (rewrite length_take; lia).
           rewrite lookup_take_lt by lia. apply Hall. lia.
      * done.
      * unfold deref. simpl. rewrite lookup_app_r, Nat.sub_diag by done. simpl.
        rewrite Hels. simpl.
        rewrite lookup_app_r by (rewrite length_take; lia).
        rewrite length_take.
        replace (s_len f - s_len f `min` length els) with 0 by lia. done.
      * intros ? i [= <-] Hi. unfold deref. simpl.
        rewrite lookup_app_r, Nat.sub_diag by done. simpl.
        rewrite Hels. simpl.
        rewrite lookup_app_l by (rewrite length_take; lia).
        by rewrite lookup_take_lt by lia.
      * intros a Hq. simpl in Hq.
        destruct (decide (a < length arrays)).
        -- by rewrite lookup_app_l.
        -- rewrite (lookup_ge_None_2 arrays a) by lia.
           rewrite lookup_app_r by lia.
           destruct (a - length arrays) as [|k] eqn:Hk; [lia|done].
      * by right.
      * rewrite length_app. lia.
  - unfold append_File. simpl.
    set (c' := 1 `max` growcap 0 1).
    split_and!.
    + eexists. simpl. rewrite lookup_app_r, Nat.sub_diag by done.
      split; [done|]. simpl. rewrite length_replicate.
      split_and!; [lia|lia|lia|].
      intros i Hi. assert (i = 0) as -> by lia. by exists d.
    + done.
    + unfold deref. simpl. by rewrite lookup_app_r, Nat.sub_diag by done.
    + done.
    + intros a Hq. simpl in Hq.
      destruct (decide (a < length arrays)).
      * by rewrite lookup_app_l.
      * rewrite (lookup_ge_None_2 arrays a) by lia.
        rewrite lookup_app_r by lia.
        destruct (a - length arrays) as [|k] eqn:Hk; [lia|done].
    + by right.
    + rewrite length_app. lia.
Qed.
End Append.

(* ===================================================================== *)
(** * What each line handler returns *)
(* ===================================================================== *)

Section Handlers.
Variable TrimSpace : string → string.
Variable growcap : nat → nat → nat.

Abbreviation parse_line := (parse_line TrimSpace growcap).
Abbreviation on_path := (on_path growcap).
Abbreviation on_other := (on_other TrimSpace).
Abbreviation run := (run TrimSpace growcap).

(** The diff a "--- " line appends to its path's file. *)
Definition opened_diff (st : PState) (path checksumBefore : string) : Diff :=
  {| DiffCommit := commit st; Path := path; ChecksumBefore := checksumBefore;
     ChecksumAfter := checksum st; Hunks := [] |}.

Lemma on_commit_Ret line st st' :
  on_commit line st = Ret st' →
  ∃ h, slice line 7 (7 + HashLength) = Some h ∧
    scanner st' = scanner st ∧
    Hashes (history st') = Hashes (history st) ++ [h] ∧
    Commits (history st') = <[h := length (commit_objs st)]> (Commits (history st)) ∧
    Files (history st') = Files (history st) ∧
    commit_objs st' = commit_objs st ++ [{| Hash := h; Author := ""; Date := 0; Diffs := [] |}] ∧
    diff_arrays st' = diff_arrays st ∧ authors st' = authors st ∧
    commit_hash st' = h ∧ checksum st' = checksum st ∧
    commit st' = Some (length (commit_objs st)) ∧ diff st' = diff st.
Proof.
  unfold on_commit. destruct (slice _ _ _) as [h|]; [|done].
  intros [= <-]. exists h. by split_and!.
Qed.

Lemma on_index_Ret line st st' :
  on_index line st = Ret st' →
  scanner st' = scanner st ∧ history st' = history st ∧
  commit_objs st' = commit_objs st ∧ diff_arrays st' = diff_arrays st ∧
  authors st' = authors st ∧ commit_hash st' = commit_hash st ∧
  commit st' = commit st ∧ diff st' = diff st ∧
  checksum st' = match index_re line with
                 | Some (_, g2) => emptyZero g2
                 | None => checksum st
                 end.
Proof.
  unfold on_index. destruct (index_re line) as [[??]|]; intros [= <-]; by split_and!.
Qed.

Lemma on_path_Ret line st st' :
  on_path line st = Ret st' →
  ∃ path cb c co,
    diff_path line (Scan (scanner st)).2 = Some path ∧
    inherited_checksum (diff_arrays st) (Files (history st) !! path) = Some cb ∧
    commit st = Some c ∧ commit_objs st !! c = Some co ∧
    let af := append_File growcap (diff_arrays st) (Files (history st) !! path)
                (opened_diff st path cb) in
    let p := {| d_arr := s_arr af.2; d_idx := s_len af.2 - 1 |} in
    scanner st' = (Scan (scanner st)).2 ∧
    Hashes (history st') = Hashes (history st) ∧
    Commits (history st') = Commits (history st) ∧
    Files (history st') = <[path := af.2]> (Files (history st)) ∧
    commit_objs st' =
      <[c := {| Hash := Hash co; Author := Author co; Date := Date co;
                Diffs := Diffs co ++ [p] |}]> (commit_objs st) ∧
    diff_arrays st' = af.1 ∧ authors st' = authors st ∧
    commit_hash st' = commit_hash st ∧ checksum st' = "" ∧
    commit st' = commit st ∧ diff st' = Some p.
Proof.
  unfold on_path.
  destruct (diff_path _ _) as [path|]; [|done].
  destruct (inherited_checksum _ _) as [cb|] eqn:Hcb; [|done].
  destruct (commit st) as [c|] eqn:Hc; [|done].
  destruct (commit_objs st !! c) as [co|] eqn:Hco; [|done].
  intros [= <-]. exists path, cb, c, co. unfold opened_diff. rewrite Hc.
  by split_and!.
Qed.

(** The hunk a header line describes. *)
Definition header_hunk (g1 g2 g3 g4 : string) : Hunk :=
  {| OldStart := Atoi g1; OldLength := length_or_1 g2;
     NewStart := Atoi g3; NewLength := length_or_1 g4 |}.

Definition add_hunk (d : Diff) (h : Hunk) : Diff :=
  {| DiffCommit := DiffCommit d; Path := Path d;
     ChecksumBefore := ChecksumBefore d; ChecksumAfter := ChecksumAfter d;
     Hunks := Hunks d ++ [h] |}.

Lemma on_hunk_Ret line st st' :
  on_hunk line st = Ret st' →
  history st' = history st ∧ commit_objs st' = commit_objs st ∧
  authors st' = authors st ∧ commit_hash st' = commit_hash st ∧
  checksum st' = checksum st ∧ commit st' = commit st ∧ diff st' = diff st ∧
  match hunk_re line with
  | None => st' = st
  | Some (g1, g2, g3, g4, g5) =>
      let h := header_hunk g1 g2 g3 g4 in
      ∃ p d, diff st = Some p ∧ deref (diff_arrays st) p = Some d ∧
        diff_arrays st' = store_diff (diff_arrays st) p (add_hunk d h) ∧
        scanner st' =
          if bool_decide (0 < len g5) then scanner st
          else skip_lines (lines_to_skip (OldLength h) (NewLength h)) (scanner st)
  end.
Proof.
  unfold on_hunk. destruct (hunk_re line) as [[[[[g1 g2] g3] g4] g5]|].
  - destruct (diff st) as [p|] eqn:Hp; [|done].
    destruct (deref _ p) as [d|] eqn:Hd; [|done].
    intros [= <-]. simpl. split_and!; try done. by exists p, d.
  - intros [= <-]. by split_and!.
Qed.

Definition set_Author (a : string) (co : Commit) : Commit :=
  {| Hash := Hash co; Author := a; Date := Date co; Diffs := Diffs co |}.
Definition set_Date (n : Z) (co : Commit) : Commit :=
  {| Hash := Hash co; Author := Author co; Date := n; Diffs := Diffs co |}.

Lemma on_other_Ret line st st' :
  on_other line st = Ret st' →
  ∃ c co, commit st = Some c ∧ commit_objs st !! c = Some co ∧
    scanner st' = scanner st ∧ history st' = history st ∧
    diff_arrays st' = diff_arrays st ∧ commit_hash st' = commit_hash st ∧
    checksum st' = checksum st ∧ commit st' = commit st ∧ diff st' = diff st ∧
    ∃ co', commit_objs st' = <[c := co']> (commit_objs st) ∧
           Hash co' = Hash co ∧ Diffs co' = Diffs co.
Proof.
  unfold on_other.
  destruct (commit st) as [c|] eqn:Hc; [|done].
  destruct (commit_objs st !! c) as [co|] eqn:Hco; [|done].
  intros Hr. exists c, co. split; [done|]. split; [done|].
  repeat case_match; simplify_eq; simpl; rewrite ?Hc; split_and!; try done.
  - by eexists (set_Author _ co).
  - exists co. by rewrite list_insert_id.
  - by eexists (set_Date _ co).
  - exists co. by rewrite list_insert_id.
Qed.

(** An invariant of the line handlers that does not read the scanner is an
    invariant of the whole loop. *)
Lemma run_invariant (I : PState → Prop) :
  (∀ st sc, I st → I (set_scanner sc st)) →
  (∀ st st', I st → parse_line st = Ret st' → I st') →
  ∀ st st', I st → run st = Ret st' → I st'.
Proof.
  intros Hsc Hline st.
  remember (length (pending (scanner st))) as n eqn:Hn.
  revert st Hn. induction (lt_wf n) as [n _ IH]. intros st -> st' HI.
  destruct (pending (scanner st)) as [|l rest] eqn:Hp.
  - rewrite (run_nil _ _ _ Hp). intros [= <-]. by apply Hsc.
  - rewrite (run_cons _ _ _ _ _ Hp).
    destruct (parse_line _) as [st1| |] eqn:H1; [|done..].
    intros Hrun.
    assert (length (pending (scanner st1)) < length (l :: rest)) as Hlt.
    { apply parse_line_shorter in H1. simpl in *. lia. }
    apply (IH _ Hlt st1 eq_refl st'); [|done].
    eapply Hline; [|done]. by apply Hsc.
Qed.
End Handlers.

(* ===================================================================== *)
(** * Invariants of the parser state *)
(* ===================================================================== *)

Lemma deref_other_array arrays arrays' q :
  arrays' !! d_arr q = arrays !! d_arr q → deref arrays' q = deref arrays q.
Proof. unfold deref. by intros ->. Qed.

Lemma File_ok_store_diff arrays path f p d d' :
  File_ok arrays path f → deref arrays p = Some d → Path d' = Path d →
  File_ok (store_diff arrays p d') path f.
Proof.
  intros (els & Hels & Hpos & Hle & Hcap & Hall) Hd Hpath.
  unfold store_diff. destruct (decide (d_arr p = s_arr f)) as [Ha|Hne].
  - exists (<[d_idx p := d']> els). rewrite <- Ha, list_lookup_alter_eq, Ha, Hels.
    rewrite length_insert. split_and!; try done.
    intros i Hi. destruct (decide (d_idx p = i)) as [<-|Hi'].
    + exists d'. split.
      * apply list_lookup_insert_eq. lia.
      * rewrite Hpath. destruct (Hall _ Hi) as (d0 & Hd0 & <-).
        unfold deref in Hd. rewrite Ha, Hels in Hd. simpl in Hd. congruence.
    + rewrite list_lookup_insert_ne by done. by apply Hall.
  - exists els. rewrite list_lookup_alter_ne by done. by split_and!.
Qed.

Section Invariants.
Variable TrimSpace : string → string.
Variable growcap : nat → nat → nat.

Abbreviation parse_line := (parse_line TrimSpace growcap).
Abbreviation on_path := (on_path growcap).
Abbreviation on_other := (on_other TrimSpace).
Abbreviation run := (run TrimSpace growcap).
Abbreviation append_File := (append_File growcap).

(** Every pointer the parser holds leads somewhere: [commit] to an
    allocated object, every [File] to a backing array in good order, and
    [diff] to the last element of some path's file. *)
Definition heap_ok (st : PState) : Prop :=
  (∀ c, commit st = Some c → is_Some (commit_objs st !! c)) ∧
  (∀ path f, Files (history st) !! path = Some f →
             File_ok (diff_arrays st) path f) ∧
  (∀ p, diff st = Some p →
        ∃ path f, Files (history st) !! path = Some f ∧
                  d_arr p = s_arr f ∧ S (d_idx p) = s_len f).

(** Two paths never share a backing array. *)
Lemma heap_ok_distinct st path1 path2 f1 f2 :
  heap_ok st →
  Files (history st) !! path1 = Some f1 →
  Files (history st) !! path2 = Some f2 →
  s_arr f1 = s_arr f2 → path1 = path2.
Proof.
  intros (_ & Hfiles & _) H1 H2 Harr.
  destruct (Hfiles _ _ H1) as (els1 & Hels1 & Hpos1 & _ & _ & Hall1).
  destruct (Hfiles _ _ H2) as (els2 & Hels2 & Hpos2 & _ & _ & Hall2).
  destruct (Hall1 0 Hpos1) as (d1 & Hd1 & <-).
  destruct (Hall2 0 Hpos2) as (d2 & Hd2 & <-).
  congruence.
Qed.

Lemma heap_ok_diff st p :
  heap_ok st → diff st = Some p →
  ∃ d, deref (diff_arrays st) p = Some d ∧
       ∃ f, Files (history st) !! Path d = Some f ∧
            d_arr p = s_arr f ∧ S (d_idx p) = s_len f.
Proof.
  intros (_ & Hfiles & Hdiff) Hp.
  destruct (Hdiff _ Hp) as (path & f & Hf & Ha & Hi).
  destruct (Hfiles _ _ Hf) as (els & Hels & _ & _ & _ & Hall).
  destruct (Hall (d_idx p)) as (d & Hd & <-); [lia|].
  exists d. split; [|by exists f].
  unfold deref. rewrite Ha, Hels. done.
Qed.

Lemma inherited_checksum_ok arrays path fo :
  (∀ f, fo = Some f → File_ok arrays path f) →
  ∃ cb, inherited_checksum arrays fo = Some cb ∧
    match fo with
    | None => cb = ""
    | Some f => ∃ d, File_at arrays f (s_len f - 1) = Some d ∧ cb = ChecksumAfter d
    end.
Proof.
  intros Hok. destruct fo as [f|]; simpl; [|by exists ""].
  pose proof (Hok f eq_refl) as Hf.
  assert (0 < s_len f) as Hpos by (by destruct Hf as (els & _ & Hpos & _)).
  destruct (s_len f) as [|i] eqn:Hlen; [lia|].
  destruct (File_ok_at arrays path f i Hf) as (d & Hd & _); [lia|].
  exists (ChecksumAfter d). rewrite Hd. split; [done|].
  exists d. by replace (S i - 1) with i by lia.
Qed.

Lemma heap_ok_init input : heap_ok (init input).
Proof. split_and!; simpl; intros; simplify_map_eq. Qed.

Lemma heap_ok_set_scanner st sc : heap_ok st → heap_ok (set_scanner sc st).
Proof. done. Qed.

Lemma heap_ok_on_commit line st st' :
  heap_ok st → on_commit line st = Ret st' → heap_ok st'.
Proof.
  intros (Hc & Hf & Hd) (h & _ & _ & _ & _ & HF & Hobjs & Harr & _ & _ & _ & Hcom & Hdiff)%on_commit_Ret.
  unfold heap_ok. rewrite HF, Hobjs, Harr, Hcom, Hdiff. split_and!; [|done..].
  intros c [= <-]. rewrite lookup_app_r, Nat.sub_diag by done. by eexists.
Qed.

Lemma heap_ok_on_index line st st' :
  heap_ok st → on_index line st = Ret st' → heap_ok st'.
Proof.
  intros Hok (_ & Hh & Hobjs & Harr & _ & _ & Hcom & Hdiff & _)%on_index_Ret.
  unfold heap_ok. by rewrite Hh, Hobjs, Harr, Hcom, Hdiff.
Qed.

Lemma heap_ok_on_path line st st' :
  heap_ok st → on_path line st = Ret st' → heap_ok st'.
Proof.
  intros Hok (path & cb & c & co & _ & _ & Hc & Hco & Hst')%on_path_Ret.
  destruct Hst' as (_ & _ & _ & HF & Hobjs & Harr & _ & _ & _ & Hcom & Hdiff).
  pose proof Hok as (Hcok & Hfok & Hdok).
  destruct (append_File_spec growcap (diff_arrays st) (Files (history st) !! path)
              (opened_diff st path cb) path) as (Hf' & Hlen & _ & _ & Hother & Hwhere & _);
    [by eauto|done|].
  set (af := append_File _ _ _) in *.
  unfold heap_ok. rewrite HF, Hobjs, Harr, Hcom, Hdiff. split_and!.
  - intros c' Hc'. apply lookup_lt_is_Some. rewrite length_insert.
    apply lookup_lt_is_Some. by apply Hcok.
  - intros path' f'. destruct (decide (path = path')) as [<-|Hne].
    + rewrite lookup_insert_eq. by intros [= <-].
    + rewrite lookup_insert_ne by done. intros Hf''.
      destruct (Hfok _ _ Hf'') as (els & Hels & Hrest).
      exists els. split; [|done]. rewrite Hother; [done|].
      destruct Hwhere as [(f & Hf & Hsame)|Hfresh].
      * rewrite Hsame. intros Heq. apply Hne. symmetry.
        by eapply (heap_ok_distinct st path' path f' f).
      * rewrite Hfresh. apply lookup_lt_Some in Hels. lia.
  - intros p [= <-]. exists path, af.2. rewrite lookup_insert_eq. simpl.
    split_and!; [done|done|lia].
Qed.

Lemma heap_ok_on_hunk line st st' :
  heap_ok st → on_hunk line st = Ret st' → heap_ok st'.
Proof.
  intros Hok (Hh & Hobjs & _ & _ & _ & Hcom & Hdiff & Hcase)%on_hunk_Ret.
  destruct (hunk_re line) as [[[[[g1 g2] g3] g4] g5]|]; [|by subst].
  destruct Hcase as (p & d & Hp & Hd & Harr & _).
  destruct Hok as (Hcok & Hfok & Hdok).
  unfold heap_ok. rewrite Hh, Hobjs, Harr, Hcom, Hdiff. split_and!; [done| |done].
  intros path f Hf. eapply File_ok_store_diff; eauto.
Qed.

Lemma heap_ok_on_other line st st' :
  heap_ok st → on_other line st = Ret st' → heap_ok st'.
Proof.
  intros (Hcok & Hfok & Hdok) (c & co & Hc & Hco & _ & Hh & Harr & _ & _ & Hcom & Hdiff & co' & Hobjs & _)%on_other_Ret.
  unfold heap_ok. rewrite Hh, Hobjs, Harr, Hcom, Hdiff. split_and!; [|done..].
  intros c' Hc'. apply lookup_lt_is_Some. rewrite length_insert.
  apply lookup_lt_is_Some. by apply Hcok.
Qed.

Lemma heap_ok_parse_line st st' :
  heap_ok st → parse_line st = Ret st' → heap_ok st'.
Proof.
  unfold parse_line. intros Hok. repeat case_match;
    eauto using heap_ok_on_commit, heap_ok_on_index, heap_ok_on_path,
      heap_ok_on_hunk, heap_ok_on_other.
Qed.
End Invariants.

(* ===================================================================== *)
(** * Pointers into backing arrays that append has left behind *)
(* ===================================================================== *)

Lemma store_diff_facts arrays q d h p x :
  deref arrays q = Some d →
  deref (store_diff arrays q (add_hunk d h)) p = Some x →
  ∃ y, deref arrays p = Some y ∧ DiffCommit x = DiffCommit y ∧ Path x = Path y ∧
       ChecksumBefore x = ChecksumBefore y ∧ ChecksumAfter x = ChecksumAfter y.
Proof.
  intros Hq Hx. destruct (decide (q = p)) as [->|Hne].
  - rewrite store_diff_same in Hx by eauto. injection Hx as <-. by exists d.
  - rewrite store_diff_other in Hx by done. by exists x.
Qed.

Section Aliasing.
Variable TrimSpace : string → string.
Variable growcap : nat → nat → nat.

Abbreviation parse_line := (parse_line TrimSpace growcap).
Abbreviation on_path := (on_path growcap).
Abbreviation on_other := (on_other TrimSpace).
Abbreviation append_File := (append_File growcap).

(** A [*Diff] [p] is sound when the element it addresses equals the element
    at the same position of the file of that element's path. Either [p]
    addresses the file's current backing array, or it addresses an array no
    file uses any more and an element that is not the file's last. *)
Definition ptr_ok (files : gmap string File) (arrays : list (list Diff)) (p : DiffPtr) : Prop :=
  ∃ d f, deref arrays p = Some d ∧ files !! Path d = Some f ∧
    d_idx p < s_len f ∧
    deref arrays {| d_arr := s_arr f; d_idx := d_idx p |} = Some d ∧
    (d_arr p = s_arr f ∨
     (S (d_idx p) < s_len f ∧
      ∀ path' f', files !! path' = Some f' → s_arr f' ≠ d_arr p)).

Definition alias_ok (st : PState) : Prop :=
  ∀ c co p, commit_objs st !! c = Some co → p ∈ Diffs co →
            ptr_ok (Files (history st)) (diff_arrays st) p.

Lemma alias_ok_init input : alias_ok (init input).
Proof. intros c co p. simpl. by rewrite lookup_nil. Qed.

Lemma alias_ok_on_commit line st st' :
  alias_ok st → on_commit line st = Ret st' → alias_ok st'.
Proof.
  intros Hal (h & _ & _ & _ & _ & HF & Hobjs & Harr & _)%on_commit_Ret.
  intros c co p. rewrite HF, Hobjs, Harr. intros Hco Hin.
  apply lookup_app_Some in Hco as [Hco|[_ Hco]]; [by eapply Hal|].
  apply list_lookup_singleton_Some in Hco as [_ <-]. simpl in Hin.
  by apply elem_of_nil in Hin.
Qed.

Lemma alias_ok_on_index line st st' :
  alias_ok st → on_index line st = Ret st' → alias_ok st'.
Proof.
  intros Hal (_ & Hh & Hobjs & Harr & _)%on_index_Ret.
  intros c co p. rewrite Hh, Hobjs, Harr. apply Hal.
Qed.

Lemma alias_ok_on_other line st st' :
  alias_ok st → on_other line st = Ret st' → alias_ok st'.
Proof.
  intros Hal (c & co & Hc & Hco & _ & Hh & Harr & _ & _ & _ & _ & co' & Hobjs & _ & HD)%on_other_Ret.
  intros c1 co1 p. rewrite Hh, Hobjs, Harr. intros Hco1 Hin.
  apply list_lookup_insert_Some in Hco1 as [(-> & <- & _)|[_ Hco1]].
  - rewrite HD in Hin. by eapply Hal.
  - by eapply Hal.
Qed.

Lemma alias_ok_on_hunk line st st' :
  heap_ok st → alias_ok st → on_hunk line st = Ret st' → alias_ok st'.
Proof.
  intros Hok Hal (Hh & Hobjs & _ & _ & _ & _ & _ & Hcase)%on_hunk_Ret.
  destruct (hunk_re line) as [[[[[g1 g2] g3] g4] g5]|]; [|by subst].
  destruct Hcase as (q & dq & Hq & Hdq & Harr & _).
  destruct (heap_ok_diff st q Hok Hq) as (dq' & Hdq' & fq & Hfq & Hqa & Hqi).
  assert (dq' = dq) as -> by congruence.
  intros c co p. rewrite Hh, Hobjs, Harr. intros Hco Hin.
  destruct (Hal _ _ _ Hco Hin) as (d & f & Hd & Hf & Hi & Hcell & Hdisj).
  destruct (decide (q = p)) as [<-|Hne].
  - assert (d = dq) as -> by congruence.
    assert (f = fq) as -> by congruence.
    eexists _, fq. rewrite store_diff_same by eauto. simpl.
    split_and!; [done|done|lia| |by left].
    destruct q as [a i]. simpl in *. subst a.
    apply store_diff_same. eauto.
  - exists d, f. rewrite store_diff_other by done.
    split_and!; [done..| |done].
    rewrite store_diff_other; [done|].
    intros ->. simpl in *.
    assert (f = fq) as ->.
    { assert (Path d = Path dq) as Hpath
        by (by eapply (heap_ok_distinct st _ _ f fq)).
      congruence. }
    destruct Hdisj as [Ha|[Hlt _]]; [|lia].
    apply Hne. destruct p as [a i]. simpl in *. by subst.
Qed.

Lemma alias_ok_on_path line st st' :
  heap_ok st → alias_ok st → on_path line st = Ret st' → alias_ok st'.
Proof.
  intros Hok Hal (path & cb & c & co & _ & _ & Hc & Hco & Hst')%on_path_Ret.
  destruct Hst' as (_ & _ & _ & HF & Hobjs & Harr & _).
  pose proof Hok as (_ & Hfok & _).
  destruct (append_File_spec growcap (diff_arrays st) (Files (history st) !! path)
              (opened_diff st path cb) path)
    as (Hf' & Hlen & Hnew & Hold & Hother & Hwhere & _); [by eauto|done|].
  set (af := append_File _ _ _) in *.
  set (n := from_option s_len 0 (Files (history st) !! path)) in *.
  set (pnew := {| d_arr := s_arr af.2; d_idx := s_len af.2 - 1 |}) in *.
  assert (pnew = {| d_arr := s_arr af.2; d_idx := n |}) as Hpnew
    by (unfold pnew; f_equal; lia).
  intros c1 co1 p. rewrite HF, Hobjs, Harr. intros Hco1 Hin.
  assert (p = pnew ∨ ∃ c0 co0, commit_objs st !! c0 = Some co0 ∧ p ∈ Diffs co0)
    as [->|(c0 & co0 & Hco0 & Hin0)].
  { apply list_lookup_insert_Some in Hco1 as [(-> & <- & _)|[_ Hco1]]; [|by eauto].
    simpl in Hin. apply elem_of_app in Hin as [Hin|Hin]; [by eauto|].
    left. by apply list_elem_of_singleton in Hin. }
  - (* the pointer this line creates *)
    exists (opened_diff st path cb), af.2. rewrite Hpnew. simpl.
    rewrite lookup_insert_eq. split_and!; [done|done|lia|done|by left].
  - (* a pointer stored by an earlier line *)
    destruct (Hal _ _ _ Hco0 Hin0) as (d & f0 & Hd & Hf0 & Hi & Hcell & Hdisj).
    assert (d_arr p < length (diff_arrays st)) as Hplt.
    { unfold deref in Hd. destruct (diff_arrays st !! d_arr p) eqn:E; [|done].
      by eapply lookup_lt_Some. }
    destruct (decide (Path d = path)) as [Hpd|Hpd].
    + (* of the path this line appends to *)
      rewrite Hpd in Hf0.
      assert (n = s_len f0) as Hn by (unfold n; by rewrite Hf0).
      assert (deref af.1 {| d_arr := s_arr af.2; d_idx := d_idx p |} = Some d) as Hcell'.
      { rewrite (Hold f0) by (done || lia). done. }
      exists d, af.2. rewrite Hpd, lookup_insert_eq.
      destruct (decide (d_arr p = s_arr af.2)) as [Hsame|Hdiff].
      * split_and!; [|done|lia|done|by left].
        destruct p as [a i]. simpl in *. by subst a.
      * split_and!; [|done|lia|done|].
        { rewrite (deref_other_array (diff_arrays st) af.1); [done|by apply Hother]. }
        right. split; [lia|]. intros path' f'.
        destruct (decide (path = path')) as [<-|Hne].
        -- rewrite lookup_insert_eq. intros [= <-]. congruence.
        -- rewrite lookup_insert_ne by done. intros Hf'' Heq.
           destruct Hdisj as [Ha|[_ Hstale]]; [|by eapply Hstale].
           apply Hne. eapply (heap_ok_distinct st path path' f0 f'); [done..|].
           congruence.
    + (* of another path *)
      assert (s_arr f0 ≠ s_arr af.2) as Hf0ne.
      { destruct Hwhere as [(f & Hf & Hsame)|Hfresh].
        - rewrite Hsame. intros Heq. apply Hpd.
          by eapply (heap_ok_distinct st _ _ f0 f).
        - pose proof (File_ok_arr _ _ _ (Hfok _ _ Hf0)). lia. }
      assert (d_arr p ≠ s_arr af.2) as Hpne.
      { destruct Hdisj as [Hcur|[_ Hstale]]; [by rewrite Hcur|].
        destruct Hwhere as [(f & Hf & Hsame)|Hfresh]; [|lia].
        rewrite Hsame. intros Heq. by eapply (Hstale path f). }
      exists d, f0. rewrite lookup_insert_ne by congruence.
      split_and!; [|done|done| |].
      * rewrite (deref_other_array (diff_arrays st) af.1); [done|by apply Hother].
      * rewrite (deref_other_array (diff_arrays st) af.1); [done|by apply Hother].
      * destruct Hdisj as [?|[Hlt Hstale]]; [by left|]. right. split; [done|].
        intros path' f'. destruct (decide (path = path')) as [<-|Hne].
        -- rewrite lookup_insert_eq. intros [= <-]. congruence.
        -- rewrite lookup_insert_ne by done. apply Hstale.
Qed.

Lemma alias_ok_parse_line st st' :
  heap_ok st ∧ alias_ok st → parse_line st = Ret st' →
  heap_ok st' ∧ alias_ok st'.
Proof.
  intros [Hok Hal] Hline. split; [by eapply heap_ok_parse_line|].
  revert Hline. unfold parse_line. repeat case_match;
    eauto using alias_ok_on_commit, alias_ok_on_index, alias_ok_on_path,
      alias_ok_on_hunk, alias_ok_on_other.
Qed.
End Aliasing.

(* ===================================================================== *)
(** * The checksum chain of a path *)
(* ===================================================================== *)

Section Chain.
Variable TrimSpace : string → string.
Variable growcap : nat → nat → nat.

Abbreviation parse_line := (parse_line TrimSpace growcap).
Abbreviation on_path := (on_path growcap).
Abbreviation on_other := (on_other TrimSpace).
Abbreviation append_File := (append_File growcap).

(** Each diff of a path starts from the checksum its predecessor ended
    with. *)
Definition chain_ok (st : PState) : Prop :=
  ∀ path f i d1 d2,
    Files (history st) !! path = Some f →
    File_at (diff_arrays st) f i = Some d1 →
    File_at (diff_arrays st) f (S i) = Some d2 →
    ChecksumBefore d2 = ChecksumAfter d1.

Lemma chain_ok_init input : chain_ok (init input).
Proof. intros path f i d1 d2. simpl. by rewrite lookup_empty. Qed.

Lemma chain_ok_on_hunk line st st' :
  chain_ok st → on_hunk line st = Ret st' → chain_ok st'.
Proof.
  intros Hch (Hh & _ & _ & _ & _ & _ & _ & Hcase)%on_hunk_Ret.
  destruct (hunk_re line) as [[[[[g1 g2] g3] g4] g5]|]; [|by subst].
  destruct Hcase as (q & dq & Hq & Hdq & Harr & _).
  intros path f i d1 d2. rewrite Hh, Harr. intros Hf H1 H2.
  pose proof (File_at_lt _ _ _ _ H1) as Hi1.
  pose proof (File_at_lt _ _ _ _ H2) as Hi2.
  rewrite File_at_deref in H1, H2 by done.
  eapply store_diff_facts in H1 as (y1 & Hy1 & _ & _ & _ & ->); [|done].
  eapply store_diff_facts in H2 as (y2 & Hy2 & _ & _ & -> & _); [|done].
  eapply (Hch path f i); by rewrite ?File_at_deref.
Qed.

Lemma chain_ok_on_path line st st' :
  heap_ok st → chain_ok st → on_path line st = Ret st' → chain_ok st'.
Proof.
  intros Hok Hch (path & cb & c & co & _ & Hcb & Hc & Hco & Hst')%on_path_Ret.
  destruct Hst' as (_ & _ & _ & HF & _ & Harr & _).
  pose proof Hok as (_ & Hfok & _).
  destruct (append_File_spec growcap (diff_arrays st) (Files (history st) !! path)
              (opened_diff st path cb) path)
    as (Hf' & Hlen & Hnew & Hold & Hother & Hwhere & _); [by eauto|done|].
  destruct (inherited_checksum_ok (diff_arrays st) path (Files (history st) !! path))
    as (cb' & Hcb' & Hlast); [by eauto|].
  assert (cb' = cb) as -> by congruence.
  set (af := append_File _ _ _) in *.
  intros path' f' i d1 d2. rewrite HF, Harr.
  destruct (decide (path = path')) as [<-|Hne].
  - rewrite lookup_insert_eq. intros [= <-] H1 H2.
    pose proof (File_at_lt _ _ _ _ H2) as Hi2.
    rewrite File_at_deref in H1, H2 by lia.
    destruct (Files (history st) !! path) as [f0|] eqn:Hf0; simpl in *; [|lia].
    rewrite (Hold f0) in H1 by (done || lia).
    destruct Hlast as (dl & Hdl & ->).
    destruct (decide (S i = s_len f0)) as [Hi|Hi].
    + rewrite Hi, Hnew in H2. injection H2 as <-. simpl.
      replace (s_len f0 - 1) with i in Hdl by lia.
      rewrite File_at_deref in Hdl by lia. congruence.
    + rewrite (Hold f0) in H2 by (done || lia).
      eapply (Hch path f0 i); [done|rewrite File_at_deref by lia; done..].
  - rewrite lookup_insert_ne by done. intros Hf'' H1 H2.
    assert (s_arr f' ≠ s_arr af.2) as Harrne.
    { destruct Hwhere as [(f & Hf & Hsame)|Hfresh].
      - rewrite Hsame. intros Heq. apply Hne.
        by eapply (heap_ok_distinct st _ _ f f').
      - pose proof (File_ok_arr _ _ _ (Hfok _ _ Hf'')). lia. }
    pose proof (File_at_lt _ _ _ _ H1) as Hi1.
    pose proof (File_at_lt _ _ _ _ H2) as Hi2.
    rewrite File_at_deref in H1, H2 by done.
    rewrite (deref_other_array (diff_arrays st)) in H1, H2 by (by apply Hother).
    eapply (Hch path' f' i); by rewrite ?File_at_deref.
Qed.

Lemma chain_ok_parse_line st st' :
  heap_ok st ∧ chain_ok st → parse_line st = Ret st' →
  heap_ok st' ∧ chain_ok st'.
Proof.
  intros [Hok Hch] Hline. split; [by eapply heap_ok_parse_line|].
  revert Hline. unfold parse_line. repeat case_match.
  - intros (h & _ & _ & _ & _ & HF & _ & Harr & _)%on_commit_Ret.
    unfold chain_ok. rewrite HF, Harr. apply Hch.
  - intros (_ & Hh & _ & Harr & _)%on_index_Ret.
    unfold chain_ok. rewrite Hh, Harr. apply Hch.
  - by apply chain_ok_on_path.
  - by apply chain_ok_on_hunk.
  - intros (c & co & _ & _ & _ & Hh & Harr & _)%on_other_Ret.
    unfold chain_ok. rewrite Hh, Harr. apply Hch.
Qed.
End Chain.

(* ===================================================================== *)
(** * Properties of the history ParseGitLog returns *)
(* ===================================================================== *)

Lemma File_elems_lookup arrays f i : File_elems arrays f !! i = File_at arrays f i.
Proof.
  unfold File_elems, File_at. case_decide.
  - rewrite lookup_take_lt by done. by destruct (arrays !! s_arr f).
  - apply lookup_take_ge. lia.
Qed.

Section History.
Variable TrimSpace : string → string.
Variable growcap : nat → nat → nat.

Abbreviation ParseGitLog := (ParseGitLog TrimSpace growcap).
Abbreviation run := (run TrimSpace growcap).

Lemma ParseGitLog_Ret input r :
  ParseGitLog input = Ret r →
  ∃ st, run (init input) = Ret st ∧ r = finish st.
Proof.
  rewrite ParseGitLog_run. destruct (run _) as [st| |]; [|done..].
  intros [= <-]. by exists st.
Qed.

Lemma ParseGitLog_invariant (I : PState → Prop) input r :
  (∀ st sc, I st → I (set_scanner sc st)) →
  (∀ st st', I st → parse_line TrimSpace growcap st = Ret st' → I st') →
  I (init input) →
  ParseGitLog input = Ret r →
  ∃ st, r = finish st ∧ I st.
Proof.
  intros Hsc Hline Hinit (st & Hrun & ->)%ParseGitLog_Ret.
  exists st. split; [done|]. by eapply run_invariant.
Qed.

(** The chain as [path_diffs] shows it. *)
Lemma path_diffs_chain input r path i d1 d2 :
  ParseGitLog input = Ret r →
  path_diffs r path !! i = Some d1 →
  path_diffs r path !! S i = Some d2 →
  ChecksumBefore d2 = ChecksumAfter d1.
Proof.
  intros Hr.
  destruct (ParseGitLog_invariant (λ st, heap_ok st ∧ chain_ok st) input r)
    as (st & -> & _ & Hch); [done|apply (chain_ok_parse_line TrimSpace growcap)| |done|].
  { split; [apply heap_ok_init|apply chain_ok_init]. }
  unfold path_diffs. simpl.
  destruct (Files (history st) !! path) as [f|] eqn:Hf; [|by rewrite lookup_nil].
  rewrite !File_elems_lookup. by apply (Hch path f).
Qed.

(** C6. In every history [ParseGitLog] returns, for every path and every
    two consecutive diffs of that path, oldest first, the earlier diff's
    [ChecksumAfter] equals the later diff's [ChecksumBefore], or the later
    diff is a creation (its [ChecksumBefore] is empty). *)
Theorem checksum_chain_of_every_path input r path i d1 d2 :
  ParseGitLog input = Ret r →
  path_diffs r path !! i = Some d1 →
  path_diffs r path !! S i = Some d2 →
  ChecksumAfter d1 = ChecksumBefore d2 ∨ ChecksumBefore d2 = "".
Proof. intros Hr H1 H2. left. symmetry. by eapply path_diffs_chain. Qed.

(** C7. In every history [ParseGitLog] returns, every [*Diff] in the
    [Diffs] list of a commit leads to a [Diff] whose fields are those of the
    [Diff] at the same position of [Files[Path]]: the arrays that a growing
    [append] leaves behind still hold what the files hold. *)
Theorem commit_diffs_agree_with_files input r c co p :
  ParseGitLog input = Ret r →
  p_commits r !! c = Some co →
  p ∈ Diffs co →
  ∃ d, deref (p_arrays r) p = Some d ∧
       path_diffs r (Path d) !! d_idx p = Some d.
Proof.
  intros Hr Hco Hin.
  destruct (ParseGitLog_invariant (λ st, heap_ok st ∧ alias_ok st) input r)
    as (st & -> & _ & Hal); [done|apply (alias_ok_parse_line TrimSpace growcap)| |done|].
  { split; [apply heap_ok_init|apply alias_ok_init]. }
  destruct (Hal c co p Hco Hin) as (d & f & Hd & Hf & Hi & Hcell & _).
  exists d. split; [done|]. unfold path_diffs. simpl in *. rewrite Hf.
  by rewrite File_elems_lookup, File_at_deref.
Qed.
End History.

Definition chain_log : list string :=
  ["commit 1111111111111111aaaa"; "index 0000..abcd";
   "--- /dev/null"; "+++ f.txt"; "@@ -0,0 +1,3 @@-";
   "commit 2222222222222222bbbb"; "index abcd..ef01";
   "--- f.txt"; "+++ f.txt"; "@@ -2 +2,2 @@-";
   "commit 3333333333333333cccc"; "index ef01..0000";
   "--- f.txt"; "+++ /dev/null"; "@@ -1,4 +0,0 @@-"].

Lemma checksum_chain_of_every_path_witness :
  ∃ r d1 d2, parse (text chain_log) = Ret r ∧
    path_diffs r "f.txt" !! 1 = Some d1 ∧
    path_diffs r "f.txt" !! 2 = Some d2 ∧
    (ChecksumAfter d1 = ChecksumBefore d2 ∨ ChecksumBefore d2 = "").
Proof.
  eexists _, _, _. split_and!; [vm_compute; reflexivity..|].
  eapply (checksum_chain_of_every_path TrimSpaceASCII doubling (text chain_log) _ "f.txt" 1);
    vm_compute; reflexivity.
Defined.

Lemma commit_diffs_agree_with_files_witness :
  ∃ r co p d, parse (text chain_log) = Ret r ∧
    p_commits r !! 0 = Some co ∧ Diffs co !! 0 = Some p ∧
    (* the pointer leads into an array that two appends have left behind *)
    Some (d_arr p) ≠ (s_arr <$> Files (p_history r) !! "f.txt") ∧
    deref (p_arrays r) p = Some d ∧
    path_diffs r (Path d) !! d_idx p = Some d.
Proof.
  eexists _, _, _, _. split_and!; [vm_compute; reflexivity..| | |].
  - vm_compute. discriminate.
  - vm_compute; reflexivity.
  - epose proof (commit_diffs_agree_with_files TrimSpaceASCII doubling (text chain_log)
                   _ 0 _ {| d_arr := 0; d_idx := 0 |}) as Hthm.
    edestruct Hthm as (d & Hd & Hp); [vm_compute; reflexivity..| |].
    + apply list_elem_of_here.
    + vm_compute in Hd. injection Hd as <-. exact Hp.
Defined.

(* ===================================================================== *)
(** * StripGitLog: the loop, and what it returns *)
(* ===================================================================== *)

Lemma strip_line_advances sc o sc' :
  strip_line sc = Ret (o, sc') →
  (∃ k, pending sc' = drop k (pending sc)) ∧ scan_err sc' = scan_err sc.
Proof.
  unfold strip_line. intros Hs.
  repeat (case_match; try done); simplify_eq;
    try (split; [by exists 0|done]).
  split; [eexists; apply skip_lines_pending|apply skip_lines_err].
Qed.

Lemma strip_line_fuel sc : strip_line sc ≠ OutOfFuel.
Proof. unfold strip_line. repeat (case_match; try done). Qed.

Section StripLoop.
Context {W : Type} `{Writer W}.

Lemma strip_loop_S fuel sc (w : W) :
  strip_loop (S fuel) sc w =
    match Scan sc with
    | (true, sc) =>
        match strip_line sc with
        | Ret (Some line, sc) =>
            match Write w (line +:+ LF) with
            | (w, Some _) => Ret (w, None)
            | (w, None) => strip_loop fuel sc w
            end
        | Ret (None, sc) => strip_loop fuel sc w
        | Panicked p => Panicked p
        | OutOfFuel => OutOfFuel
        end
    | (false, sc) => Ret (w, Err sc)
    end.
Proof.
  simpl. destruct (Scan sc) as [[] sc']; [|done].
  by destruct (strip_line sc') as [[[line|] sc'']| |].
Qed.

(** Any bound above the number of pending lines gives the same run. *)
Lemma strip_loop_fuel f1 f2 sc (w : W) :
  length (pending sc) < f1 → length (pending sc) < f2 →
  strip_loop f1 sc w = strip_loop f2 sc w.
Proof.
  revert f2 sc w. induction f1 as [|f1 IH]; intros [|f2] sc w H1 H2; try lia.
  rewrite !strip_loop_S. destruct (pending sc) as [|l rest] eqn:Hp.
  - by rewrite (Scan_nil _ Hp).
  - rewrite (Scan_cons _ _ _ Hp).
    destruct (strip_line _) as [[o sc']| |] eqn:Hline; [|done..].
    apply strip_line_advances in Hline as [[k Hk] _]. simpl in *.
    assert (length (pending sc') ≤ length rest) by (rewrite Hk, length_drop; lia).
    destruct o as [line|]; [destruct (Write w _) as [w' [e|]]; [done|]|];
      apply IH; lia.
Qed.

(** The loop with a bound that is always enough. *)
Definition strip_run (sc : Scanner) (w : W) : Outcome (W * option error) :=
  strip_loop (S (length (pending sc))) sc w.

Lemma strip_run_nil sc (w : W) :
  pending sc = [] → strip_run sc w = Ret (w, scan_err sc).
Proof. intros Hp. unfold strip_run. by rewrite strip_loop_S, (Scan_nil _ Hp). Qed.

Lemma strip_run_cons sc (w : W) l rest :
  pending sc = l :: rest →
  strip_run sc w =
    match strip_line (rescan rest l sc) with
    | Ret (Some line, sc) =>
        match Write w (line +:+ LF) with
        | (w, Some _) => Ret (w, None)
        | (w, None) => strip_run sc w
        end
    | Ret (None, sc) => strip_run sc w
    | Panicked p => Panicked p
    | OutOfFuel => OutOfFuel
    end.
Proof.
  intros Hp. unfold strip_run at 1. rewrite strip_loop_S, (Scan_cons _ _ _ Hp).
  destruct (strip_line _) as [[o sc']| |] eqn:Hline; [|done..].
  apply strip_line_advances in Hline as [[k Hk] _]. simpl in *.
  assert (length (pending sc') ≤ length rest) by (rewrite Hk, length_drop; lia).
  rewrite Hp.
  destruct o as [line|]; [destruct (Write w _) as [w' [e|]]; [done|]|];
    apply strip_loop_fuel; simpl; lia.
Qed.

Lemma StripGitLog_run input (w : W) :
  StripGitLog input w = strip_run (NewScanner input) w.
Proof. done. Qed.

Lemma strip_run_total sc (w : W) : strip_run sc w ≠ OutOfFuel.
Proof.
  remember (length (pending sc)) as n eqn:Hn.
  revert sc w Hn. induction (lt_wf n) as [n _ IH]. intros sc w ->.
  destruct (pending sc) as [|l rest] eqn:Hp.
  - by rewrite (strip_run_nil _ _ Hp).
  - rewrite (strip_run_cons _ _ _ _ Hp).
    destruct (strip_line _) as [[o sc']| |] eqn:Hline; [|done|].
    + apply strip_line_advances in Hline as [[k Hk] _]. simpl in *.
      assert (length (pending sc') < length (l :: rest))
        by (rewrite Hk, length_drop; simpl; lia).
      destruct o as [line|]; [destruct (Write w _) as [w' [e|]]; [done|]|];
        by eapply IH.
    + by apply strip_line_fuel in Hline.
Qed.

(** The bound [StripGitLog] passes to its loop is never reached. *)
Lemma StripGitLog_total input (w : W) : StripGitLog input w ≠ OutOfFuel.
Proof. rewrite StripGitLog_run. apply strip_run_total. Qed.

(** An error that the loop returns is the one the scanner holds. *)
Lemma strip_run_error sc (w w' : W) e :
  strip_run sc w = Ret (w', Some e) → scan_err sc = Some e.
Proof.
  remember (length (pending sc)) as n eqn:Hn.
  revert sc w Hn. induction (lt_wf n) as [n _ IH]. intros sc w ->.
  destruct (pending sc) as [|l rest] eqn:Hp.
  - rewrite (strip_run_nil _ _ Hp). by intros [= _ ->].
  - rewrite (strip_run_cons _ _ _ _ Hp).
    destruct (strip_line _) as [[o sc']| |] eqn:Hline; [|done..].
    apply strip_line_advances in Hline as [[k Hk] Herr]. simpl in *.
    assert (length (pending sc') < length (l :: rest))
      by (rewrite Hk, length_drop; simpl; lia).
    rewrite <- Herr.
    destruct o as [line|]; [destruct (Write w _) as [w1 [e1|]]; [done|]|];
      by eapply IH.
Qed.

(** X1. If writing an output line fails, [StripGitLog] stops at once and
    returns nil: the loop, at a line it prints, ends with the writer as the
    failed write left it and no error; and for every input, an error that
    [StripGitLog] returns is the scanner's, never the writer's. *)
Theorem StripGitLog_silent_on_write_failure :
  (∀ fuel sc (w : W) l rest line sc' w' e,
     pending sc = l :: rest →
     strip_line (rescan rest l sc) = Ret (Some line, sc') →
     Write w (line +:+ LF) = (w', Some e) →
     strip_loop (S fuel) sc w = Ret (w', None)) ∧
  (∀ input (w w' : W) e,
     StripGitLog input w = Ret (w', Some e) → read_err input = Some e).
Proof.
  split.
  - intros fuel sc w l rest line sc' w' e Hp Hline Hw.
    by rewrite strip_loop_S, (Scan_cons _ _ _ Hp), Hline, Hw.
  - intros input w w' e. rewrite StripGitLog_run.
    intros Herr%strip_run_error. done.
Qed.
End StripLoop.

(** A stream that breaks off with a read error, stripped into a pipe whose
    reader has gone: the first write fails and the stripper returns nil.
    Stripped into a buffer, the read error comes back. *)
Definition broken_input : Reader :=
  {| data := unlines ["commit 1111111111111111aaaa"; "Author: a@example.org"];
     read_err := Some "read |0: input/output error" |}.

Definition closed_pipe : Pipe := {| written := ""; quota := 0 |}.

Lemma StripGitLog_silent_on_write_failure_witness :
  strip_loop 3 (NewScanner broken_input) closed_pipe = Ret (closed_pipe, None) ∧
  ∃ out, StripGitLog broken_input "" = Ret (out, read_err broken_input).
Proof.
  destruct (StripGitLog_silent_on_write_failure (W := Pipe)) as [Hfail _].
  destruct (StripGitLog_silent_on_write_failure (W := string)) as [_ Herr].
  split.
  - eapply (Hfail 2 (NewScanner broken_input) closed_pipe
              "commit 1111111111111111aaaa" ["Author: a@example.org"]);
      vm_compute; reflexivity.
  - assert (∃ out e, StripGitLog broken_input "" = Ret (out, Some e))
      as (out & e & Hrun) by (eexists _, _; vm_compute; reflexivity).
    exists out. by rewrite (Herr _ _ _ _ Hrun).
Defined.

(* ===================================================================== *)
(** * Hashes and the Commits map *)
(* ===================================================================== *)

Lemma size_list_to_set_le (l : list string) :
  size (list_to_set l : gset string) ≤ length l.
Proof.
  induction l as [|x l IH]; simpl; [done|].
  destruct (decide (x ∈ l)) as [Hin|Hnin].
  - rewrite (subseteq_union_1_L {[x]} (list_to_set l)) by set_solver. lia.
  - rewrite size_union by set_solver. rewrite size_singleton. lia.
Qed.

Lemma size_list_to_set_lt (l : list string) :
  ¬ NoDup l → size (list_to_set l : gset string) < length l.
Proof.
  induction l as [|x l IH]; simpl; intros Hdup.
  - destruct Hdup. constructor.
  - destruct (decide (x ∈ l)) as [Hin|Hnin].
    + rewrite (subseteq_union_1_L {[x]} (list_to_set l)) by set_solver.
      pose proof (size_list_to_set_le l). lia.
    + rewrite size_union by set_solver. rewrite size_singleton.
      assert (¬ NoDup l) as Hl by (intros Hl; apply Hdup; by constructor).
      specialize (IH Hl). lia.
Qed.

(** [c] is the position of the last occurrence of [h] in [l]. *)
Definition last_at (l : list string) (h : string) (c : nat) : Prop :=
  l !! c = Some h ∧ ∀ j, c < j → l !! j ≠ Some h.

Lemma last_at_snoc l h0 h c :
  last_at (l ++ [h0]) h c ↔
  if decide (h0 = h) then c = length l else last_at l h c.
Proof.
  unfold last_at. case_decide as Hh; [subst h0|].
  - split.
    + intros [Hc Hlast]. destruct (decide (c < length l)) as [Hlt|Hge].
      * exfalso. apply (Hlast (length l) Hlt). apply list_lookup_middle. done.
      * apply lookup_lt_Some in Hc. rewrite length_app in Hc. simpl in Hc. lia.
    + intros ->. split; [by apply list_lookup_middle|].
      intros j Hj. rewrite lookup_ge_None_2; [done|].
      rewrite length_app. simpl. lia.
  - split.
    + intros [Hc Hlast]. apply lookup_app_Some in Hc as [Hc|[_ Hc]].
      * split; [done|]. intros j Hj Hlj. apply (Hlast j Hj).
        by apply lookup_app_l_Some.
      * apply list_lookup_singleton_Some in Hc as [_ ?]. done.
    + intros [Hc Hlast]. split; [by apply lookup_app_l_Some|].
      intros j Hj Hlj. apply lookup_app_Some in Hlj as [Hlj|[_ Hlj]].
      * by apply (Hlast j).
      * apply list_lookup_singleton_Some in Hlj as [_ ?]. done.
Qed.

Section Commits.
Variable TrimSpace : string → string.
Variable growcap : nat → nat → nat.

Abbreviation parse_line := (parse_line TrimSpace growcap).
Abbreviation run := (run TrimSpace growcap).
Abbreviation ParseGitLog := (ParseGitLog TrimSpace growcap).

(** The commit objects were allocated in the order of [Hashes], and the
    [Commits] map sends each hash to the object of its last occurrence. *)
Definition commits_ok (st : PState) : Prop :=
  Hash <$> commit_objs st = Hashes (history st) ∧
  dom (Commits (history st)) = list_to_set (Hashes (history st)) ∧
  ∀ h c, Commits (history st) !! h = Some c ↔ last_at (Hashes (history st)) h c.

Lemma commits_ok_init input : commits_ok (init input).
Proof.
  split_and!; simpl; [done|set_solver|].
  intros h c. rewrite lookup_empty. split; [done|]. by intros [? _].
Qed.

Lemma commits_ok_parse_line st st' :
  commits_ok st → parse_line st = Ret st' → commits_ok st'.
Proof.
  intros (Hobjs & Hdom & Hmap). unfold parse_line. repeat case_match.
  - intros (h & _ & _ & HH & HC & _ & HO & _)%on_commit_Ret.
    unfold commits_ok. rewrite HH, HC, HO. split_and!.
    + by rewrite fmap_app, Hobjs.
    + rewrite dom_insert_L, list_to_set_app_L, Hdom. set_solver.
    + intros h' c. rewrite last_at_snoc.
      assert (length (commit_objs st) = length (Hashes (history st))) as ->
        by (by rewrite <- Hobjs, length_fmap).
      case_decide as Hh; [subst h'|].
      * rewrite lookup_insert_eq. naive_solver.
      * rewrite lookup_insert_ne by done. apply Hmap.
  - intros (_ & Hh & HO & _)%on_index_Ret.
    unfold commits_ok. by rewrite Hh, HO.
  - intros (path & cb & c & co & _ & _ & _ & Hco & _ & HH & HC & _ & HO & _)%on_path_Ret.
    unfold commits_ok. rewrite HH, HC, HO. split_and!; [|done..].
    rewrite list_fmap_insert. simpl. rewrite list_insert_id; [done|].
    by rewrite list_lookup_fmap, Hco.
  - intros (Hh & HO & _)%on_hunk_Ret.
    unfold commits_ok. by rewrite Hh, HO.
  - intros (c & co & _ & Hco & _ & Hh & _ & _ & _ & _ & _ & co' & HO & Hhash & _)%on_other_Ret.
    unfold commits_ok. rewrite Hh, HO. split_and!; [|done..].
    rewrite list_fmap_insert, Hhash. rewrite list_insert_id; [done|].
    by rewrite list_lookup_fmap, Hco.
Qed.

(** The loop ends with the scanner drained and its error untouched. *)
Lemma run_Ret_scanner st st' :
  run st = Ret st' →
  pending (scanner st') = [] ∧ scan_err (scanner st') = scan_err (scanner st).
Proof.
  remember (length (pending (scanner st))) as n eqn:Hn.
  revert st Hn. induction (lt_wf n) as [n _ IH]. intros st ->.
  destruct (pending (scanner st)) as [|l rest] eqn:Hp.
  - rewrite (run_nil _ _ _ Hp). by intros [= <-].
  - rewrite (run_cons _ _ _ _ _ Hp).
    destruct (parse_line _) as [st1| |] eqn:H1; [|done..].
    intros Hrun. pose proof (parse_line_advances _ _ _ _ H1) as [_ Herr].
    apply parse_line_shorter in H1. simpl in *.
    destruct (IH (length (pending (scanner st1))) ltac:(lia) st1 eq_refl Hrun) as [? ?].
    split; [done|congruence].
Qed.

Lemma ParseGitLog_err input r :
  ParseGitLog input = Ret r → p_err r = read_err input.
Proof.
  intros (st & Hrun & ->)%ParseGitLog_Ret.
  apply run_Ret_scanner in Hrun as [_ Herr]. done.
Qed.

(** X2. A "commit " line of at least 23 bytes appends its 16-byte
    identifier to [Hashes] and overwrites the entry of [Commits] under that
    identifier with the new object, whatever was there. In every history
    returned, the commit objects stand in the order of [Hashes], [Commits]
    sends each identifier to the object of its last occurrence, a repeated
    identifier makes [Commits] strictly smaller than [Hashes], and the error
    returned is the scanner's: a collision is not reported. Such a run
    exists. *)
Theorem repeated_hash_replaces_commit :
  (∀ st line,
     Text (scanner st) = line → HasPrefix line "commit " = true →
     7 + HashLength ≤ len line →
     ∃ h st', slice line 7 (7 + HashLength) = Some h ∧ len h = HashLength ∧
       parse_line st = Ret st' ∧
       Hashes (history st') = Hashes (history st) ++ [h] ∧
       Commits (history st') = <[h := length (commit_objs st)]> (Commits (history st)) ∧
       commit_objs st' = commit_objs st ++ [{| Hash := h; Author := ""; Date := 0; Diffs := [] |}]) ∧
  (∀ input r,
     ParseGitLog input = Ret r →
     Hash <$> p_commits r = Hashes (p_history r) ∧
     (∀ h c, Commits (p_history r) !! h = Some c ↔ last_at (Hashes (p_history r)) h c) ∧
     size (Commits (p_history r)) ≤ length (Hashes (p_history r)) ∧
     (¬ NoDup (Hashes (p_history r)) →
      size (Commits (p_history r)) < length (Hashes (p_history r))) ∧
     p_err r = read_err input) ∧
  (∃ r, ParseGitLog (text ["commit 1111111111111111aaaa"; "commit 1111111111111111bbbb"]) = Ret r ∧
        Hashes (p_history r) = ["1111111111111111"; "1111111111111111"] ∧
        Commits (p_history r) = {["1111111111111111" := 1]} ∧
        p_err r = None).
Proof.
  split_and!.
  - intros st line Htext Hpre Hlen. unfold parse_line. rewrite Htext, Hpre.
    unfold on_commit, slice. rewrite decide_True by lia.
    eexists _, _. split_and!; try done.
    clear Htext Hpre. replace (7 + HashLength - 7) with 16 by done.
    assert (16 ≤ len (sdrop 7 line)) as Hl.
    { clear -Hlen. unfold HashLength in Hlen.
      do 7 (destruct line as [|? line]; simpl in *; [lia|]). lia. }
    revert Hl. generalize (sdrop 7 line). intros s Hs.
    do 16 (destruct s as [|? s]; simpl in *; [lia|]). done.
  - intros input r Hr.
    destruct (ParseGitLog_invariant TrimSpace growcap commits_ok input r)
      as (st & -> & Hobjs & Hdom & Hmap);
      [done|apply commits_ok_parse_line|apply commits_ok_init|done|].
    split_and!; [done|done| | |by apply ParseGitLog_err]; simpl.
    + rewrite <- size_dom, Hdom. apply size_list_to_set_le.
    + rewrite <- size_dom, Hdom. apply size_list_to_set_lt.
  - eexists. split_and!; vm_compute; reflexivity.
Qed.
End Commits.

Lemma repeated_hash_replaces_commit_witness :
  ∃ r, parse (text ["commit 1111111111111111aaaa"; "commit 1111111111111111bbbb";
                    "commit 2222222222222222cccc"]) = Ret r ∧
       Hashes (p_history r) =
         ["1111111111111111"; "1111111111111111"; "2222222222222222"] ∧
       size (Commits (p_history r)) < length (Hashes (p_history r)).
Proof.
  destruct (repeated_hash_replaces_commit TrimSpaceASCII doubling) as (_ & Hrun & _).
  assert (∃ r, parse (text ["commit 1111111111111111aaaa"; "commit 1111111111111111bbbb";
                            "commit 2222222222222222cccc"]) = Ret r ∧
               Hashes (p_history r) =
                 ["1111111111111111"; "1111111111111111"; "2222222222222222"])
    as (r & Hr & HH) by (eexists; split; vm_compute; reflexivity).
  exists r. split; [exact Hr|]. split; [exact HH|].
  destruct (Hrun _ r Hr) as (_ & _ & _ & Hlt & _). apply Hlt.
  rewrite HH. intros Hnd. apply NoDup_cons in Hnd as [Hnin _]. apply Hnin.
  apply list_elem_of_here.
Defined.


(* ===================================================================== *)
(** * Line by line: which branch a line takes *)
(* ===================================================================== *)

Lemma HasPrefix_head s c p :
  HasPrefix s (String c p) = true → ∃ s', s = String c s' ∧ HasPrefix s' p = true.
Proof.
  destruct s as [|d s]; simpl; [done|].
  destruct (Ascii.eqb c d) eqn:E; [|done].
  apply Ascii.eqb_eq in E as ->. eauto.
Qed.

Lemma HasPrefix_other_head s c p d q :
  HasPrefix s (String c p) = true → c ≠ d → HasPrefix s (String d q) = false.
Proof.
  intros (s' & -> & _)%HasPrefix_head Hne. simpl.
  destruct (Ascii.eqb d c) eqn:E; [|done].
  apply Ascii.eqb_eq in E. congruence.
Qed.

Lemma HasPrefix_len s p : HasPrefix s p = true → len p ≤ len s.
Proof.
  revert s. induction p as [|c p IH]; intros s; simpl; [lia|].
  destruct s as [|d s]; simpl; [done|]. destruct (Ascii.eqb c d); [|done].
  intros Hp%IH. lia.
Qed.

(** The branch a line takes is settled by its first byte. *)
Ltac other_prefix H :=
  repeat match goal with
  | |- context [HasPrefix ?l (String ?c ?p)] =>
      rewrite (HasPrefix_other_head l _ _ c p H) by (by intros [= ?])
  end.

Section Dispatch.
Variable TrimSpace : string → string.
Variable growcap : nat → nat → nat.

Abbreviation parse_line := (parse_line TrimSpace growcap).
Abbreviation on_path := (on_path growcap).
Abbreviation on_other := (on_other TrimSpace).
Abbreviation run := (run TrimSpace growcap).

Lemma parse_line_commit st :
  HasPrefix (Text (scanner st)) "commit " = true →
  parse_line st = on_commit (Text (scanner st)) st.
Proof. intros H. unfold parse_line. by rewrite H. Qed.

Lemma parse_line_index st :
  HasPrefix (Text (scanner st)) "index " = true →
  parse_line st = on_index (Text (scanner st)) st.
Proof. intros H. unfold parse_line. rewrite H. by other_prefix H. Qed.

Lemma parse_line_path st :
  HasPrefix (Text (scanner st)) "--- " = true →
  parse_line st = on_path (Text (scanner st)) st.
Proof. intros H. unfold parse_line. rewrite H. by other_prefix H. Qed.

Lemma parse_line_hunk st :
  HasPrefix (Text (scanner st)) "@@ " = true →
  parse_line st = on_hunk (Text (scanner st)) st.
Proof. intros H. unfold parse_line. rewrite H. by other_prefix H. Qed.

Lemma parse_line_other st :
  HasPrefix (Text (scanner st)) "commit " = false →
  HasPrefix (Text (scanner st)) "index " = false →
  HasPrefix (Text (scanner st)) "--- " = false →
  HasPrefix (Text (scanner st)) "@@ " = false →
  parse_line st = on_other (Text (scanner st)) st.
Proof. intros H1 H2 H3 H4. unfold parse_line. by rewrite H1, H2, H3, H4. Qed.

(** One iteration of the loop, when the handler of the line returns. *)
Lemma run_step st line tl st' :
  pending (scanner st) = line :: tl →
  parse_line (set_scanner (rescan tl line (scanner st)) st) = Ret st' →
  run st = run st'.
Proof. intros Hp Hline. by rewrite (run_cons _ _ _ _ _ Hp), Hline. Qed.
End Dispatch.

(* ===================================================================== *)
(** * What the handlers read of the scanner *)
(* ===================================================================== *)

(** Apply [f] to what a run returns. *)
Definition omap {A B : Type} (f : A → B) (o : Outcome A) : Outcome B :=
  match o with
  | Ret a => Ret (f a)
  | Panicked p => Panicked p
  | OutOfFuel => OutOfFuel
  end.

Lemma set_scanner_id st : set_scanner (scanner st) st = st.
Proof. by destruct st. Qed.

Lemma set_scanner_twice sc sc' st :
  set_scanner sc (set_scanner sc' st) = set_scanner sc st.
Proof. done. Qed.

Lemma Scan_rescan tl l sc :
  (Scan (rescan tl l sc)).2 = rescan (drop 1 tl) (hd "" tl) sc.
Proof. by destruct tl. Qed.

(** The scanner a hunk header leaves behind. *)
Definition hunk_scanner (line : string) (sc : Scanner) : Scanner :=
  match hunk_re line with
  | Some (_, g2, _, g4, g5) =>
      if bool_decide (0 < len g5) then sc
      else skip_lines (lines_to_skip (length_or_1 g2) (length_or_1 g4)) sc
  | None => sc
  end.

Section Frame.
Variable TrimSpace : string → string.
Variable growcap : nat → nat → nat.

Abbreviation on_path := (on_path growcap).
Abbreviation on_other := (on_other TrimSpace).
Abbreviation run := (run TrimSpace growcap).

Lemma on_commit_frame line sc st :
  on_commit line (set_scanner sc st) = omap (set_scanner sc) (on_commit line st).
Proof. unfold on_commit. by destruct (slice _ _ _). Qed.

Lemma on_index_frame line sc st :
  on_index line (set_scanner sc st) = omap (set_scanner sc) (on_index line st).
Proof. unfold on_index. by destruct (index_re _) as [[??]|]. Qed.

Lemma on_other_frame line sc st :
  on_other line (set_scanner sc st) = omap (set_scanner sc) (on_other line st).
Proof.
  unfold on_other. simpl.
  destruct (commit st) as [c|]; [|done].
  destruct (commit_objs st !! c) as [co|]; [|done].
  repeat case_match; done.
Qed.

Lemma on_path_frame line sc1 sc2 st :
  diff_path line (Scan sc1).2 = diff_path line (Scan sc2).2 →
  on_path line (set_scanner sc1 st)
  = omap (set_scanner (Scan sc1).2) (on_path line (set_scanner sc2 st)).
Proof.
  intros Hdp. unfold on_path.
  change (scanner (set_scanner sc1 st)) with sc1.
  change (scanner (set_scanner sc2 st)) with sc2.
  rewrite Hdp. destruct (diff_path line (Scan sc2).2) as [path|]; [|done]. simpl.
  destruct (inherited_checksum _ _) as [cb|]; [|done].
  destruct (commit st) as [c|]; [|done].
  by destruct (commit_objs st !! c) as [co|].
Qed.

Lemma on_hunk_frame line sc1 sc2 st :
  on_hunk line (set_scanner sc1 st)
  = omap (set_scanner (hunk_scanner line sc1)) (on_hunk line (set_scanner sc2 st)).
Proof.
  unfold on_hunk, hunk_scanner. simpl.
  destruct (hunk_re line) as [[[[[g1 g2] g3] g4] g5]|]; [|done].
  destruct (diff st) as [p|]; [|done].
  destruct (deref _ p); [|done]. simpl.
  by destruct (bool_decide _).
Qed.

(** The loop does not read the token it is entered with. *)
Lemma run_scanner_eq st sc1 sc2 :
  pending sc1 = pending sc2 → scan_err sc1 = scan_err sc2 →
  run (set_scanner sc1 st) = run (set_scanner sc2 st).
Proof.
  intros Hp He. destruct (pending sc2) as [|l rest] eqn:Hp2.
  - rewrite !run_nil by done. simpl. unfold rescan. by rewrite He.
  - rewrite (run_cons _ _ (set_scanner sc1 st) l rest) by done.
    rewrite (run_cons _ _ (set_scanner sc2 st) l rest) by done.
    simpl. unfold rescan. by rewrite He.
Qed.
End Frame.

(* ===================================================================== *)
(** * A "--- " line *)
(* ===================================================================== *)

Section PathLine.
Variable TrimSpace : string → string.
Variable growcap : nat → nat → nat.

Abbreviation parse_line := (parse_line TrimSpace growcap).
Abbreviation on_path := (on_path growcap).
Abbreviation run := (run TrimSpace growcap).
Abbreviation append_File := (append_File growcap).

(** What a "--- " line does to a state in good order with a current commit:
    it never panics once the path is known, and the diff it opens is the last
    element of the path's file and the target of [diff]. *)
Lemma on_path_opens line st c path :
  heap_ok st → commit st = Some c →
  diff_path line (Scan (scanner st)).2 = Some path →
  ∃ st' p d f cb,
    on_path line st = Ret st' ∧
    scanner st' = (Scan (scanner st)).2 ∧
    inherited_checksum (diff_arrays st) (Files (history st) !! path) = Some cb ∧
    d = opened_diff st path cb ∧
    diff st' = Some p ∧ deref (diff_arrays st') p = Some d ∧
    Files (history st') !! path = Some f ∧
    s_len f = S (from_option s_len 0 (Files (history st) !! path)) ∧
    p = {| d_arr := s_arr f; d_idx := s_len f - 1 |} ∧
    File_at (diff_arrays st') f (s_len f - 1) = Some d ∧
    checksum st' = "" ∧ commit st' = commit st.
Proof.
  intros Hok Hc Hpath. pose proof Hok as (Hcok & Hfok & _).
  destruct (Hcok _ Hc) as [co Hco].
  destruct (inherited_checksum_ok (diff_arrays st) path (Files (history st) !! path))
    as (cb & Hcb & _); [by eauto|].
  destruct (append_File_spec growcap (diff_arrays st) (Files (history st) !! path)
              (opened_diff st path cb) path)
    as (Hf' & Hlen & Hnew & _); [by eauto|done|].
  assert (∃ st', on_path line st = Ret st') as [st' Hret].
  { unfold on_path. rewrite Hpath, Hcb. destruct (commit st) as [c'|]; [|done].
    injection Hc as ->. rewrite Hco. eauto. }
  pose proof Hret as (path' & cb' & c' & co' & Hp' & Hcb' & _ & _ & Hst')%on_path_Ret.
  assert (path' = path) as -> by congruence.
  assert (cb' = cb) as -> by congruence.
  destruct Hst' as (Hsc & _ & _ & HF & _ & Harr & _ & _ & Hsum & Hcom & Hdiff).
  set (af := append_File _ _ _) in *.
  assert (s_len af.2 - 1 = from_option s_len 0 (Files (history st) !! path)) as Hidx by lia.
  exists st', {| d_arr := s_arr af.2; d_idx := s_len af.2 - 1 |},
    (opened_diff st path cb), af.2, cb.
  rewrite HF, Harr, lookup_insert_eq, Hidx.
  split_and!; try done.
  - by rewrite Hdiff, Hidx.
  - rewrite File_at_deref by lia. done.
Qed.

(** X3. Whenever the loop is at a line beginning "--- ", it goes on with
    the line after the next one: the next line is consumed whatever the path
    is. When the path is /dev/null, the consumed line gives the path of the
    diff, from its fifth byte on; otherwise the diff has the path of the
    "--- " line and the consumed line is discarded: no iteration of the loop
    has it as its line, and the run is the same whatever that line says. *)
Theorem path_line_consumes_next_line st line tl c :
  heap_ok st → commit st = Some c →
  pending (scanner st) = line :: tl →
  HasPrefix line "--- " = true →
  let next := hd "" tl in
  let path := if decide (sdrop 4 line = "/dev/null") then sdrop 4 next
              else sdrop 4 line in
  (sdrop 4 line = "/dev/null" → 4 ≤ len next) →
  (∃ st' p d,
     run st = run st' ∧
     pending (scanner st') = drop 1 tl ∧
     diff st' = Some p ∧ deref (diff_arrays st') p = Some d ∧
     Path d = path ∧ DiffCommit d = Some c ∧ Hunks d = [] ∧
     last (path_diffs (finish st') path) = Some d) ∧
  (sdrop 4 line ≠ "/dev/null" →
   ∀ other sc, pending sc = line :: other :: drop 1 tl →
               scan_err sc = scan_err (scanner st) → tl ≠ [] →
               run (set_scanner sc st) = run st).
Proof.
  intros Hok Hc Hp Hpre next path Hlen.
  set (sc1 := rescan tl line (scanner st)).
  assert (diff_path line (Scan sc1).2 = Some path) as Hpath.
  { unfold diff_path, path, next, sc1. rewrite Scan_rescan. simpl.
    case_decide as Hdev; [|done]. unfold slice_from.
    by rewrite decide_True by auto. }
  destruct (on_path_opens line (set_scanner sc1 st) c path)
    as (st' & p & d & f & cb & Hret & Hsc & _ & Hd & Hdiff & Hderef & Hf & _ & _ & Hat & _);
    [done..|].
  split.
  - exists st', p, d. split_and!.
    + eapply run_step; [done|]. by rewrite parse_line_path.
    + rewrite Hsc. cbn [scanner set_scanner]. unfold sc1. by rewrite Scan_rescan.
    + done.
    + done.
    + by rewrite Hd.
    + by rewrite Hd.
    + by rewrite Hd.
    + unfold path_diffs. simpl. rewrite Hf, last_lookup, File_elems_lookup.
      assert (heap_ok st') as (_ & Hfok' & _)
        by exact (heap_ok_on_path growcap line (set_scanner sc1 st) st' Hok Hret).
      destruct (Hfok' _ _ Hf) as (els & Hels & Hpos & Hle & Hcap & _).
      unfold File_elems. rewrite Hels. simpl. rewrite length_take.
      replace (Init.Nat.pred (s_len f `min` length els)) with (s_len f - 1) by lia.
      done.
  - intros Hdev other sc Hpsc Herr Htl.
    destruct tl as [|nx rest]; [done|]. simpl in Hpsc.
    rewrite (run_step _ _ st line (nx :: rest) st' Hp)
      by (by rewrite parse_line_path).
    set (sc2 := rescan (other :: rest) line sc).
    assert (on_path line (set_scanner sc2 st)
            = omap (set_scanner (Scan sc2).2) (on_path line (set_scanner sc1 st))) as Hframe.
    { apply on_path_frame. unfold diff_path. by rewrite !decide_False by done. }
    rewrite Hret in Hframe. simpl in Hframe.
    rewrite (run_step _ _ (set_scanner sc st) line (other :: rest) _ Hpsc)
      by (rewrite parse_line_path by done; exact Hframe).
    rewrite <- (set_scanner_id st') at 2.
    apply run_scanner_eq.
    + rewrite Hsc. cbn [scanner set_scanner]. unfold sc1, sc2.
      by rewrite !Scan_rescan.
    + rewrite Hsc. cbn [scanner set_scanner]. unfold sc1, sc2.
      by rewrite !Scan_rescan.
Qed.
End PathLine.

Definition commit_state : PState :=
  {| scanner := {| pending := ["--- /dev/null"; "+++ f.txt"; "@@ -0,0 +1 @@-"];
                   token := "commit 1111111111111111aaaa"; scan_err := None |};
     history := {| Hashes := ["1111111111111111"];
                   Commits := {["1111111111111111" := 0]}; Files := ∅ |};
     commit_objs := [{| Hash := "1111111111111111"; Author := ""; Date := 0; Diffs := [] |}];
     diff_arrays := []; authors := ∅; commit_hash := "1111111111111111";
     checksum := "abcd"; commit := Some 0; diff := None |}.

Lemma commit_state_ok : heap_ok commit_state.
Proof.
  split_and!; simpl.
  - intros c [= <-]. by eexists.
  - intros path f. by rewrite lookup_empty.
  - done.
Qed.

Lemma path_line_consumes_next_line_witness :
  ∃ st' p d,
    run TrimSpaceASCII doubling commit_state = run TrimSpaceASCII doubling st' ∧
    pending (scanner st') = ["@@ -0,0 +1 @@-"] ∧
    diff st' = Some p ∧ deref (diff_arrays st') p = Some d ∧
    Path d = "f.txt" ∧ DiffCommit d = Some 0 ∧ Hunks d = [] ∧
    last (path_diffs (finish st') "f.txt") = Some d.
Proof.
  destruct (path_line_consumes_next_line TrimSpaceASCII doubling commit_state
              "--- /dev/null" ["+++ f.txt"; "@@ -0,0 +1 @@-"] 0) as [Hopen _].
  - exact commit_state_ok.
  - reflexivity.
  - reflexivity.
  - reflexivity.
  - simpl. lia.
  - exact Hopen.
Defined.

(* ===================================================================== *)
(** * Strings: concatenation, prefixes, runs *)
(* ===================================================================== *)

Lemma sapp_nil_l s : "" +:+ s = s.
Proof. done. Qed.

Lemma sapp_cons c s t : String c s +:+ t = String c (s +:+ t).
Proof. done. Qed.

Lemma sapp_nil_r s : s +:+ "" = s.
Proof. induction s as [|c s IH]; [done|]. by rewrite sapp_cons, IH. Qed.

Lemma sapp_assoc s t u : (s +:+ t) +:+ u = s +:+ (t +:+ u).
Proof. induction s as [|c s IH]; [done|]. by rewrite !sapp_cons, IH. Qed.

Lemma len_sapp s t : len (s +:+ t) = len s + len t.
Proof. induction s as [|c s IH]; [done|]. rewrite sapp_cons. simpl. by rewrite IH. Qed.

Lemma HasPrefix_nil s : HasPrefix s "" = true.
Proof. by destruct s. Qed.

Lemma HasPrefix_sapp p s : HasPrefix (p +:+ s) p = true.
Proof.
  induction p as [|c p IH]; [apply HasPrefix_nil|]. rewrite sapp_cons. simpl.
  by rewrite Ascii.eqb_refl.
Qed.

Lemma sdrop_sapp p s : sdrop (len p) (p +:+ s) = s.
Proof. induction p as [|c p IH]; [done|]. by rewrite sapp_cons. Qed.

Lemma stake_sapp p s : stake (len p) (p +:+ s) = p.
Proof. induction p as [|c p IH]; [done|]. rewrite sapp_cons. simpl. by rewrite IH. Qed.

Lemma HasPrefix_split s p : HasPrefix s p = true → s = p +:+ sdrop (len p) s.
Proof.
  revert s. induction p as [|c p IH]; intros s; [done|].
  intros (s' & -> & Hp)%HasPrefix_head. rewrite sapp_cons. simpl. by rewrite <- IH.
Qed.

Lemma after_lit_sapp lit s : after_lit lit (lit +:+ s) = Some s.
Proof. unfold after_lit. by rewrite HasPrefix_sapp, sdrop_sapp. Qed.

Lemma after_lit_Some lit s r : after_lit lit s = Some r → s = lit +:+ r.
Proof.
  unfold after_lit. destruct (HasPrefix s lit) eqn:Hp; [|done].
  intros [= <-]. by apply HasPrefix_split.
Qed.

(** Every byte of [s] satisfies [p]. *)
Fixpoint all_bytes (p : ascii → bool) (s : string) : bool :=
  match s with
  | EmptyString => true
  | String c s' => p c && all_bytes p s'
  end.

(** [s] does not start with a byte satisfying [p]. *)
Definition stops (p : ascii → bool) (s : string) : Prop :=
  match s with
  | EmptyString => True
  | String c _ => p c = false
  end.

Lemma all_bytes_sapp p s t : all_bytes p (s +:+ t) = all_bytes p s && all_bytes p t.
Proof.
  induction s as [|c s IH]; [done|]. rewrite sapp_cons. simpl.
  by rewrite IH, andb_assoc.
Qed.

Lemma all_bytes_impl (p q : ascii → bool) s :
  (∀ c, p c = true → q c = true) → all_bytes p s = true → all_bytes q s = true.
Proof.
  intros Hpq. induction s as [|c s IH]; [done|]. simpl.
  intros [Hc Hs]%andb_true_iff. by rewrite (Hpq c Hc), IH.
Qed.

Lemma span_spec p s a b :
  span p s = (a, b) → s = a +:+ b ∧ all_bytes p a = true ∧ stops p b.
Proof.
  revert a b. induction s as [|c s IH]; intros a b; simpl.
  - by intros [= <- <-].
  - destruct (p c) eqn:Hc.
    + destruct (span p s) as [a' b'] eqn:Hs. intros [= <- <-].
      destruct (IH a' b' eq_refl) as (-> & Ha & Hb).
      rewrite sapp_cons. simpl. by rewrite Hc, Ha.
    + intros [= <- <-]. simpl. by rewrite Hc.
Qed.

Lemma span_sapp p a b :
  all_bytes p a = true → stops p b → span p (a +:+ b) = (a, b).
Proof.
  intros Ha Hb. induction a as [|c a IH].
  - rewrite sapp_nil_l. destruct b as [|d b]; [done|]. simpl in *. by rewrite Hb.
  - simpl in Ha. apply andb_true_iff in Ha as [Hc Ha].
    rewrite sapp_cons. simpl. by rewrite Hc, IH.
Qed.

(** How an optional byte was matched: it was there, or what follows does not
    start with it. *)
Lemma opt_byte_spec c s o r :
  opt_byte c s = (o, r) →
  s = o +:+ r ∧ (o = String c "" ∨ (o = "" ∧ stops (Ascii.eqb c) r)).
Proof.
  unfold opt_byte. destruct s as [|d s].
  - intros [= <- <-]. split; [done|]. by right.
  - destruct (Ascii.eqb c d) eqn:E.
    + apply Ascii.eqb_eq in E as <-. intros [= <- <-]. split; [done|]. by left.
    + intros [= <- <-]. split; [done|]. by right.
Qed.

Lemma opt_byte_there c s : opt_byte c (String c s) = (String c "", s).
Proof. unfold opt_byte. by rewrite Ascii.eqb_refl. Qed.

Lemma opt_byte_absent c s : stops (Ascii.eqb c) s → opt_byte c s = ("", s).
Proof. unfold opt_byte. destruct s as [|d s]; [done|]. simpl. by intros ->. Qed.

(* ===================================================================== *)
(** * The text of a hunk header *)
(* ===================================================================== *)

(** A separator between a start and a length: a comma, or nothing, and then
    there is no length either. *)
Definition sep_ok (sep g : string) : Prop := sep = "," ∨ (sep = "" ∧ g = "").

(** The text that [hunk_ranges] splits into [g1], [g2], [g3], [g4] and [r]. *)
Definition header_text (g1 s1 g2 g3 s2 g4 r : string) : string :=
  "@@ -" +:+ g1 +:+ s1 +:+ g2 +:+ " +" +:+ g3 +:+ s2 +:+ g4 +:+ " " +:+ r.

Record header_groups (g1 s1 g2 g3 s2 g4 : string) : Prop := {
  hg_1 : all_bytes is_digit g1 = true;
  hg_2 : all_bytes is_digit g2 = true;
  hg_3 : all_bytes is_digit g3 = true;
  hg_4 : all_bytes is_digit g4 = true;
  hg_1_ne : g1 ≠ "";
  hg_3_ne : g3 ≠ "";
  hg_s1 : sep_ok s1 g2;
  hg_s2 : sep_ok s2 g4 }.

Lemma stops_digit_comma : is_digit "," = false.
Proof. done. Qed.

Lemma opt_byte_sep sep g r (c : ascii) :
  sep_ok sep g → stops is_digit (sep +:+ g +:+ String c r) →
  Ascii.eqb "," c = false → all_bytes is_digit g = true →
  opt_byte "," (sep +:+ g +:+ String c r) = (sep, g +:+ String c r).
Proof.
  intros [->|[-> ->]] Hstop Hc Hg.
  - by rewrite sapp_cons, sapp_nil_l, opt_byte_there.
  - rewrite !sapp_nil_l. apply opt_byte_absent. simpl. done.
Qed.

Lemma hunk_ranges_complete g1 s1 g2 g3 s2 g4 r :
  header_groups g1 s1 g2 g3 s2 g4 →
  hunk_ranges (header_text g1 s1 g2 g3 s2 g4 r) = Some (g1, g2, g3, g4, r).
Proof.
  intros [H1 H2 H3 H4 Hn1 Hn3 Hs1 Hs2]. unfold hunk_ranges, header_text.
  rewrite after_lit_sapp. simpl.
  assert (∀ sep g rest, sep_ok sep g → all_bytes is_digit g = true →
            stops is_digit (sep +:+ g +:+ String " " rest)) as Hstops.
  { intros sep g rest [->|[-> ->]] _; done. }
  rewrite (span_sapp is_digit g1) by (done || by apply (Hstops s1 g2)).
  rewrite decide_False by done.
  change (" +" +:+ g3 +:+ s2 +:+ g4 +:+ " " +:+ r)
    with (String " " ("+" +:+ g3 +:+ s2 +:+ g4 +:+ " " +:+ r)).
  rewrite (opt_byte_sep s1 g2) by (done || by apply Hstops).
  rewrite (span_sapp is_digit g2) by done.
  change (String " " ("+" +:+ g3 +:+ s2 +:+ g4 +:+ " " +:+ r))
    with (" +" +:+ g3 +:+ s2 +:+ g4 +:+ " " +:+ r).
  rewrite after_lit_sapp. simpl.
  change (" " +:+ r) with (String " " r).
  rewrite (span_sapp is_digit g3) by (done || by apply (Hstops s2 g4)).
  rewrite decide_False by done.
  rewrite (opt_byte_sep s2 g4) by (done || by apply Hstops).
  rewrite (span_sapp is_digit g4) by done.
  change (String " " r) with (" " +:+ r).
  by rewrite after_lit_sapp.
Qed.

Lemma hunk_ranges_sound line g1 g2 g3 g4 r :
  hunk_ranges line = Some (g1, g2, g3, g4, r) →
  ∃ s1 s2, line = header_text g1 s1 g2 g3 s2 g4 r ∧
           header_groups g1 s1 g2 g3 s2 g4.
Proof.
  unfold hunk_ranges.
  destruct (after_lit "@@ -" line) as [r0|] eqn:E0; [|done]. simpl.
  destruct (span is_digit r0) as [a1 r1] eqn:E1.
  case_decide as Hn1; [done|].
  destruct (opt_byte "," r1) as [s1 r2] eqn:E2.
  destruct (span is_digit r2) as [a2 r3] eqn:E3.
  destruct (after_lit " +" r3) as [r4|] eqn:E4; [|done]. simpl.
  destruct (span is_digit r4) as [a3 r5] eqn:E5.
  case_decide as Hn3; [done|].
  destruct (opt_byte "," r5) as [s2 r6] eqn:E6.
  destruct (span is_digit r6) as [a4 r7] eqn:E7.
  destruct (after_lit " " r7) as [r8|] eqn:E8; [|done]. simpl.
  intros [= <- <- <- <- <-].
  apply after_lit_Some in E0 as ->.
  apply span_spec in E1 as (-> & H1 & Hst1).
  apply opt_byte_spec in E2 as (-> & Hs1).
  apply span_spec in E3 as (-> & H2 & Hst2).
  apply after_lit_Some in E4 as ->.
  apply span_spec in E5 as (-> & H3 & Hst3).
  apply opt_byte_spec in E6 as (-> & Hs2).
  apply span_spec in E7 as (-> & H4 & Hst4).
  apply after_lit_Some in E8 as ->.
  assert (∀ sep g rest, stops is_digit (sep +:+ g +:+ rest) →
            (sep = "," ∨ sep = "" ∧ stops (Ascii.eqb ",") (g +:+ rest)) →
            all_bytes is_digit g = true → sep_ok sep g) as Hsep.
  { intros sep g rest Hst [->|[-> _]] Hg; [by left|]. right. split; [done|].
    destruct g as [|c g]; [done|]. simpl in *.
    apply andb_true_iff in Hg as [Hc _]. congruence. }
  exists s1, s2. split; [done|].
  split; try done; by eapply Hsep.
Qed.

(** What [hunk_re] adds: the second "@@" and the optional dash. *)
Lemma hunk_re_ranges line g1 g2 g3 g4 g5 :
  hunk_re line = Some (g1, g2, g3, g4, g5) ↔
  ∃ r', hunk_ranges line = Some (g1, g2, g3, g4, "@@" +:+ r') ∧
        g5 = (opt_byte "-" r').1.
Proof.
  unfold hunk_re.
  destruct (hunk_ranges line) as [[[[[a1 a2] a3] a4] r]|]; simpl.
  - destruct (after_lit "@@" r) as [r'|] eqn:E; simpl.
    + apply after_lit_Some in E as ->.
      destruct (opt_byte "-" r') as [o rest] eqn:Eo. split.
      * intros [= <- <- <- <- <-]. exists r'. by rewrite Eo.
      * intros (r'' & [= <- <- <- <- Hr] & ->).
        assert (r'' = r') as -> by (by simplify_eq). by rewrite Eo.
    + split; [done|]. intros (r' & [= <- <- <- <- ->] & _).
      by rewrite after_lit_sapp in E.
  - split; [done|]. by intros (? & ? & _).
Qed.

Lemma strip_re_ranges line g1 g2 g3 g4 r :
  hunk_ranges line = Some (g1, g2, g3, g4, r) →
  strip_re line = Some (g1, g2, g3, g4).
Proof. unfold strip_re. by intros ->. Qed.

(* ===================================================================== *)
(** * Reading the numbers of a hunk header *)
(* ===================================================================== *)

(** The number a string of digits denotes. *)
Fixpoint decimal_from (s : string) (n : N) : N :=
  match s with
  | EmptyString => n
  | String c s' => decimal_from s' (n * 10 + (N_of_ascii c - 48))%N
  end.

Definition decimal (s : string) : N := decimal_from s 0.

Lemma decimal_from_ge s n : (n ≤ decimal_from s n)%N.
Proof.
  revert n. induction s as [|c s IH]; intros n; simpl; [lia|].
  etrans; [|apply IH]. lia.
Qed.

Lemma ParseUint_loop_digits s n :
  all_bytes is_digit s = true →
  (decimal_from s n ≤ 18446744073709551615)%N →
  ParseUint_loop s n = UVal (decimal_from s n).
Proof.
  revert n. induction s as [|c s IH]; intros n; simpl; [done|].
  intros [Hc Hs]%andb_true_iff Hle. unfold digit_val. rewrite Hc.
  pose proof (decimal_from_ge s (n * 10 + (N_of_ascii c - 48))).
  destruct (N.ltb_spec 18446744073709551615 (n * 10 + (N_of_ascii c - 48))); [lia|].
  by apply IH.
Qed.

(** Within the range of [int], [strconv.Atoi] reads a string of digits as
    the number it denotes. *)
Lemma Atoi_digits s :
  all_bytes is_digit s = true → s ≠ "" →
  (decimal s < 9223372036854775808)%N →
  Atoi s = Z.of_N (decimal s).
Proof.
  intros Hs Hne Hlt. destruct s as [|c s]; [done|].
  assert (ParseUint (String c s) = UVal (decimal (String c s))) as HP.
  { unfold ParseUint. apply ParseUint_loop_digits; [done|]. unfold decimal in Hlt. lia. }
  unfold Atoi.
  assert (c ≠ "+"%char ∧ c ≠ "-"%char) as [Hp Hm].
  { simpl in Hs. apply andb_true_iff in Hs as [Hc _].
    split; intros ->; done. }
  assert ((match String c s with
           | String "+" r => (false, r)
           | String "-" r => (true, r)
           | _ => (false, String c s)
           end) = (false, String c s)) as ->.
  { destruct c as [[] [] [] [] [] [] [] []]; done. }
  rewrite HP.
  destruct (N.leb_spec 9223372036854775808 (decimal (String c s))); [lia|done].
Qed.

Lemma length_or_1_digits g :
  all_bytes is_digit g = true →
  (decimal g < 9223372036854775808)%N →
  length_or_1 g = if decide (g = "") then 1%Z else Z.of_N (decimal g).
Proof.
  intros Hg Hlt. unfold length_or_1. destruct g as [|c g]; [done|].
  rewrite decide_True by (simpl; lia). rewrite decide_False by done.
  by apply Atoi_digits.
Qed.

Lemma wrap64_small z :
  (0 ≤ z < 9223372036854775808)%Z → wrap64 z = z.
Proof. intros Hz. unfold wrap64. rewrite Z.mod_small; lia. Qed.

(* ===================================================================== *)
(** * A hunk header line *)
(* ===================================================================== *)

Section HunkLine.
Variable TrimSpace : string → string.
Variable growcap : nat → nat → nat.

Abbreviation parse_line := (parse_line TrimSpace growcap).
Abbreviation run := (run TrimSpace growcap).

(** The length a header gives as a number: 1 when the group is empty. *)
Definition given_length (g : string) : N :=
  if decide (g = "") then 1%N else decimal g.

(** X4. At a line that [hunk_re] matches, with a current diff: the line is
    "@@ -a[,b] +c[,d] @@" followed by an optional dash and anything, a and c
    being non-empty runs of digits and b and d runs of digits; for numbers
    within the range of [int], the loop appends to the current diff, and to
    no other, the hunk with OldStart a, OldLength b (1 when b is missing),
    NewStart c and NewLength d (1 when d is missing); without the dash it
    goes on after the next OldLength + NewLength lines, with the dash at the
    very next line. *)
Theorem hunk_header_appends_hunk st line tl g1 g2 g3 g4 g5 p d :
  pending (scanner st) = line :: tl →
  hunk_re line = Some (g1, g2, g3, g4, g5) →
  diff st = Some p → deref (diff_arrays st) p = Some d →
  (decimal g1 < 2 ^ 63)%N → (decimal g3 < 2 ^ 63)%N →
  (given_length g2 + given_length g4 < 2 ^ 63)%N →
  (∃ s1 s2 rest,
     line = "@@ -" +:+ g1 +:+ s1 +:+ g2 +:+ " +" +:+ g3 +:+ s2 +:+ g4 +:+ " @@" +:+ g5 +:+ rest ∧
     header_groups g1 s1 g2 g3 s2 g4 ∧
     (g5 = "-" ∨ g5 = "" ∧ stops (Ascii.eqb "-") rest)) ∧
  ∃ st',
    run st = run st' ∧
    diff st' = Some p ∧
    deref (diff_arrays st') p =
      Some (add_hunk d {| OldStart := Z.of_N (decimal g1);
                          OldLength := Z.of_N (given_length g2);
                          NewStart := Z.of_N (decimal g3);
                          NewLength := Z.of_N (given_length g4) |}) ∧
    (∀ q, q ≠ p → deref (diff_arrays st') q = deref (diff_arrays st) q) ∧
    history st' = history st ∧ commit_objs st' = commit_objs st ∧
    pending (scanner st') =
      if decide (g5 = "") then drop (N.to_nat (given_length g2 + given_length g4)) tl
      else tl.
Proof.
  intros Hp Hre Hdiff Hd Ha Hc Hsum.
  pose proof Hre as (r' & Hranges & Hg5)%hunk_re_ranges.
  pose proof Hranges as (s1 & s2 & Hline & Hgroups)%hunk_ranges_sound.
  pose proof Hgroups as [H1 H2 H3 H4 Hn1 Hn3 _ _].
  assert (HasPrefix line "@@ " = true) as Hpre by (by rewrite Hline).
  assert (given_length g2 < 2 ^ 63 ∧ given_length g4 < 2 ^ 63)%N as [Hb Hd'] by lia.
  assert (∀ g, all_bytes is_digit g = true → (given_length g < 2 ^ 63)%N →
               length_or_1 g = Z.of_N (given_length g)) as Hgiven.
  { intros g Hg Hlt. unfold given_length in *.
    destruct (decide (g = "")) as [->|Hne]; [done|].
    rewrite length_or_1_digits by done. by rewrite decide_False. }
  pose proof (Hgiven g2 H2 Hb) as Hl2. pose proof (Hgiven g4 H4 Hd') as Hl4.
  split.
  - destruct (opt_byte "-" r') as [o rest] eqn:Eo. simpl in Hg5. subst o.
    apply opt_byte_spec in Eo as (-> & Hdash).
    exists s1, s2, rest. split; [|done].
    rewrite Hline. reflexivity.
  - set (sc := rescan tl line (scanner st)).
    assert (∃ st', on_hunk line (set_scanner sc st) = Ret st') as [st' Hret].
    { unfold on_hunk. rewrite Hre. simpl. rewrite Hdiff, Hd. eauto. }
    pose proof Hret as (Hh & Hobjs & _ & _ & _ & _ & Hdiff' & Hcase)%on_hunk_Ret.
    rewrite Hre in Hcase. destruct Hcase as (p' & d' & Hp' & Hd'' & Harr & Hsc).
    simpl in Hp', Hd'', Hdiff', Hh, Hobjs, Hsc.
    assert (p' = p) as -> by congruence. assert (d' = d) as -> by congruence.
    unfold header_hunk in *. simpl in Hsc.
    rewrite !Atoi_digits, Hl2, Hl4 in * by done.
    exists st'. split_and!.
    + eapply run_step; [done|]. by rewrite parse_line_hunk.
    + congruence.
    + rewrite Harr. apply store_diff_same. eauto.
    + intros q Hq. rewrite Harr. by apply store_diff_other.
    + done.
    + done.
    + rewrite Hsc. destruct g5 as [|c5 g5]; simpl.
      * rewrite skip_lines_pending. unfold lines_to_skip.
        rewrite <- N2Z.inj_add, wrap64_small by lia.
        f_equal. lia.
      * done.
Qed.
End HunkLine.

Definition f_txt_created : Diff :=
  {| DiffCommit := Some 0; Path := "f.txt"; ChecksumBefore := "";
     ChecksumAfter := "abcd"; Hunks := [] |}.

Definition diff_state : PState :=
  {| scanner := {| pending := ["@@ -2 +2,3 @@ func"; "-a"; "+b"; "+c"; "+d";
                               "commit 2222222222222222bbbb"];
                   token := "+++ f.txt"; scan_err := None |};
     history := {| Hashes := ["1111111111111111"];
                   Commits := {["1111111111111111" := 0]};
                   Files := {["f.txt" := {| s_arr := 0; s_len := 1; s_cap := 1 |}]} |};
     commit_objs := [{| Hash := "1111111111111111"; Author := ""; Date := 0;
                        Diffs := [{| d_arr := 0; d_idx := 0 |}] |}];
     diff_arrays := [[f_txt_created]]; authors := ∅;
     commit_hash := "1111111111111111"; checksum := ""; commit := Some 0;
     diff := Some {| d_arr := 0; d_idx := 0 |} |}.

Lemma hunk_header_appends_hunk_witness :
  ∃ st',
    run TrimSpaceASCII doubling diff_state = run TrimSpaceASCII doubling st' ∧
    deref (diff_arrays st') {| d_arr := 0; d_idx := 0 |} =
      Some (add_hunk f_txt_created
              {| OldStart := 2; OldLength := 1; NewStart := 2; NewLength := 3 |}) ∧
    pending (scanner st') = ["commit 2222222222222222bbbb"].
Proof.
  destruct (hunk_header_appends_hunk TrimSpaceASCII doubling diff_state
              "@@ -2 +2,3 @@ func" ["-a"; "+b"; "+c"; "+d"; "commit 2222222222222222bbbb"]
              "2" "" "2" "3" "" {| d_arr := 0; d_idx := 0 |} f_txt_created)
    as (_ & st' & Hrun & _ & Hd & _ & _ & _ & Hp);
    [reflexivity..| vm_compute; reflexivity | vm_compute; reflexivity
    | vm_compute; reflexivity |].
  exists st'. split_and!; [exact Hrun|exact Hd|exact Hp].
Defined.

(* ===================================================================== *)
(** * The author of a commit *)
(* ===================================================================== *)

Definition two_commits_one_author : list string :=
  ["commit 1111111111111111aaaa"; "Author: a@example.org"; "Date: 20200101";
   "commit 2222222222222222bbbb"; "Author: a@example.org"; "Date: 20200102"].

(** A log of two commits by one author: the second commit carries the
    address, the first commit does not. *)
Lemma first_commit_of_author_unattributed :
  ∃ r c1 c2, parse (text two_commits_one_author) = Ret r ∧
    p_commits r = [c1; c2] ∧
    Author c1 = "" ∧ Date c1 = 20200101%Z ∧
    Author c2 = "a@example.org" ∧ Date c2 = 20200102%Z.
Proof. eexists _, _, _. split_and!; vm_compute; reflexivity. Qed.

(* ===================================================================== *)
(** * The checksums of a diff *)
(* ===================================================================== *)

Lemma last_File_elems arrays path f :
  File_ok arrays path f →
  last (File_elems arrays f) = File_at arrays f (s_len f - 1).
Proof.
  intros (els & Hels & Hpos & Hle & Hcap & _).
  rewrite last_lookup, File_elems_lookup. f_equal.
  unfold File_elems. rewrite Hels. simpl. rewrite length_take. lia.
Qed.

Section Checksums.
Variable TrimSpace : string → string.
Variable growcap : nat → nat → nat.

Abbreviation parse_line := (parse_line TrimSpace growcap).
Abbreviation on_path := (on_path growcap).
Abbreviation run := (run TrimSpace growcap).

(** X5. An "index " line that [index_re] matches records
    one pending checksum, the hash after the two dots, empty when that hash
    is all zeros; the hash before the dots is recorded nowhere. The diff the
    next "--- " line opens takes the pending checksum as [ChecksumAfter] and
    resets it to empty; its [ChecksumBefore] is the [ChecksumAfter] of the
    last diff of the same path, and empty when the path has no diff yet. *)
Theorem index_line_gives_checksum_after :
  (∀ st line tl g1 g2,
     pending (scanner st) = line :: tl →
     index_re line = Some (g1, g2) →
     ∃ st', run st = run st' ∧
       checksum st' = emptyZero g2 ∧
       history st' = history st ∧ commit_objs st' = commit_objs st ∧
       diff_arrays st' = diff_arrays st ∧ authors st' = authors st ∧
       commit_hash st' = commit_hash st ∧ commit st' = commit st ∧
       diff st' = diff st ∧ pending (scanner st') = tl) ∧
  (∀ st line tl c path,
     heap_ok st → commit st = Some c →
     pending (scanner st) = line :: tl →
     HasPrefix line "--- " = true →
     diff_path line (rescan (drop 1 tl) (hd "" tl) (scanner st)) = Some path →
     ∃ st' p d,
       run st = run st' ∧
       diff st' = Some p ∧ deref (diff_arrays st') p = Some d ∧
       last (path_diffs (finish st') path) = Some d ∧
       ChecksumAfter d = checksum st ∧
       ChecksumBefore d =
         from_option ChecksumAfter "" (last (path_diffs (finish st) path)) ∧
       checksum st' = "").
Proof.
  split.
  - intros st line tl g1 g2 Hp Hre.
    assert (HasPrefix line "index " = true) as Hpre.
    { unfold index_re, after_lit in Hre. by destruct (HasPrefix line "index "). }
    set (sc := rescan tl line (scanner st)).
    destruct (on_index line (set_scanner sc st)) as [st'| |] eqn:Hret;
      [|unfold on_index in Hret; by rewrite Hre in Hret..].
    pose proof Hret as (Hsc & Hh & Hobjs & Harr & Hau & Hch & Hc & Hd & Hsum)%on_index_Ret.
    rewrite Hre in Hsum. exists st'. split_and!; try done.
    + eapply run_step; [done|]. by rewrite parse_line_index.
    + by rewrite Hsc.
  - intros st line tl c path Hok Hc Hp Hpre Hpath.
    set (sc := rescan tl line (scanner st)).
    destruct (on_path_opens growcap line (set_scanner sc st) c path)
      as (st' & p & d & f & cb & Hret & Hsc & Hcb & Hd & Hdiff & Hderef & Hf & _ & _ & Hat & Hsum & _);
      [done|done|cbn [scanner set_scanner]; unfold sc; by rewrite Scan_rescan|].
    assert (heap_ok st') as (_ & Hfok' & _)
      by exact (heap_ok_on_path growcap line (set_scanner sc st) st' Hok Hret).
    exists st', p, d. split_and!; try done.
    + eapply run_step; [done|]. by rewrite parse_line_path.
    + unfold path_diffs. simpl. rewrite Hf.
      by rewrite (last_File_elems _ path) by eauto.
    + by rewrite Hd.
    + rewrite Hd. simpl. unfold path_diffs. simpl in *.
      pose proof Hok as (_ & Hfok & _).
      destruct (inherited_checksum_ok (diff_arrays st) path (Files (history st) !! path))
        as (cb' & Hcb' & Hlast); [by eauto|].
      assert (cb' = cb) as -> by congruence.
      destruct (Files (history st) !! path) as [f0|] eqn:Hf0; [|by subst].
      destruct Hlast as (dl & Hdl & ->).
      by rewrite (last_File_elems _ path), Hdl by eauto.
Qed.
End Checksums.

Definition two_index_lines : list string :=
  ["commit 1111111111111111aaaa"; "index aaaa..bbbb 100644"; "--- f.txt"; "+++ f.txt";
   "commit 2222222222222222bbbb"; "index cccc..dddd 100644"; "--- f.txt"; "+++ f.txt"].

(** Both "index " lines are well formed, and no diff takes its
    [ChecksumBefore] from the hash before the dots. *)
Lemma index_before_hash_unused :
  ∃ r d1 d2, parse (text two_index_lines) = Ret r ∧
    path_diffs r "f.txt" = [d1; d2] ∧
    index_re "index aaaa..bbbb 100644" = Some ("aaaa", "bbbb") ∧
    index_re "index cccc..dddd 100644" = Some ("cccc", "dddd") ∧
    ChecksumBefore d1 = "" ∧ ChecksumBefore d1 ≠ emptyZero "aaaa" ∧
    ChecksumBefore d2 = "bbbb" ∧ ChecksumBefore d2 ≠ emptyZero "cccc".
Proof. eexists _, _, _. split_and!; vm_compute; (reflexivity || discriminate). Qed.

Lemma index_line_gives_checksum_after_witness :
  ∃ st' p d,
    run TrimSpaceASCII doubling commit_state = run TrimSpaceASCII doubling st' ∧
    diff st' = Some p ∧ deref (diff_arrays st') p = Some d ∧
    ChecksumAfter d = "abcd" ∧ ChecksumBefore d = "" ∧ checksum st' = "".
Proof.
  destruct (index_line_gives_checksum_after TrimSpaceASCII doubling) as [_ Hpath].
  destruct (Hpath commit_state "--- /dev/null" ["+++ f.txt"; "@@ -0,0 +1 @@-"] 0 "f.txt")
    as (st' & p & d & Hrun & Hdiff & Hd & _ & Hafter & Hbefore & Hsum);
    [exact commit_state_ok|reflexivity..|].
  exists st', p, d. split_and!; [exact Hrun|exact Hdiff|exact Hd|exact Hafter|exact Hbefore|exact Hsum].
Defined.

(* ===================================================================== *)
(** * An "Author: " line *)
(* ===================================================================== *)

Section AuthorEffect.
Variable TrimSpace : string → string.
Variable growcap : nat → nat → nat.

Abbreviation parse_line := (parse_line TrimSpace growcap).
Abbreviation on_other := (on_other TrimSpace).
Abbreviation run := (run TrimSpace growcap).

(** X6. At an "Author: " line, with [a] the trimmed text after the prefix:
    a commit that has an author keeps it; a commit without one takes the
    string [authors] holds under [a], when there is one; and when there is
    none, [a] is entered into [authors] and the commit stays without an
    author. Nothing else changes, and the loop goes on at the next line. *)
Theorem author_line_effect st line tl c co :
  pending (scanner st) = line :: tl →
  HasPrefix line "Author: " = true →
  commit st = Some c → commit_objs st !! c = Some co →
  let a := TrimSpace (sdrop 8 line) in
  ∃ st', run st = run st' ∧ pending (scanner st') = tl ∧
    history st' = history st ∧ diff_arrays st' = diff_arrays st ∧
    commit st' = commit st ∧ diff st' = diff st ∧ checksum st' = checksum st ∧
    if decide (Author co = "") then
      match authors st !! a with
      | Some a2 =>
          commit_objs st' = <[c := set_Author a2 co]> (commit_objs st) ∧
          authors st' = authors st
      | None =>
          commit_objs st' = commit_objs st ∧ authors st' = <[a := a]> (authors st)
      end
    else commit_objs st' = commit_objs st ∧ authors st' = authors st.
Proof.
  intros Hp Hpre Hc Hco a.
  set (sc := rescan tl line (scanner st)).
  assert (parse_line (set_scanner sc st) = on_other line (set_scanner sc st)) as Hdisp.
  { rewrite parse_line_other; [done|simpl; by other_prefix Hpre..]. }
  assert (HasPrefix line "Date: " = false) as Hdate by (by other_prefix Hpre).
  unfold on_other in Hdisp.
  cbn [commit commit_objs authors set_scanner] in Hdisp.
  rewrite Hc, Hco, Hpre, Hdate in Hdisp.
  rewrite andb_false_r, andb_true_r in Hdisp. fold a in Hdisp.
  destruct (decide (Author co = "")) as [Hau|Hau].
  - rewrite bool_decide_eq_true_2 in Hdisp by (by rewrite Hau).
    destruct (authors st !! a) as [a2|] eqn:Ha.
    + eexists. split; [eapply (run_step _ _ st line tl); [exact Hp|exact Hdisp]|].
      by split_and!.
    + eexists. split; [eapply (run_step _ _ st line tl); [exact Hp|exact Hdisp]|].
      by split_and!.
  - rewrite bool_decide_eq_false_2 in Hdisp by (by destruct (Author co)).
    eexists. split; [eapply (run_step _ _ st line tl); [exact Hp|exact Hdisp]|].
    by split_and!.
Qed.
End AuthorEffect.

Lemma author_line_effect_witness :
  let st := set_scanner
              {| pending := ["Author: a@example.org"; "Date: 20200101"];
                 token := ""; scan_err := None |} commit_state in
  ∃ st', run TrimSpaceASCII doubling st = run TrimSpaceASCII doubling st' ∧
    pending (scanner st') = ["Date: 20200101"] ∧
    commit_objs st' = commit_objs st ∧
    authors st' = {["a@example.org" := "a@example.org"]}.
Proof.
  intros st.
  destruct (author_line_effect TrimSpaceASCII doubling st
              "Author: a@example.org" ["Date: 20200101"] 0
              {| Hash := "1111111111111111"; Author := ""; Date := 0; Diffs := [] |})
    as (st' & Hrun & Hp & _ & _ & _ & _ & _ & Hobjs & Hau); [reflexivity..|].
  exists st'. split_and!; [exact Hrun|exact Hp|exact Hobjs|exact Hau].
Defined.
